(** * Enigma: a three-rotor machine (enigma.go)

    A shallow embedding of the rotor / reflector / plugboard engine of
    [enigma.go] and of its configuration setters, followed by the properties
    of the engine: stepping, range validation, plugboard bookkeeping,
    reciprocity and the absence of fixed points. *)

From Stdlib Require Import ZArith Lia Bool Ascii String List.
From stdpp Require Import gmap strings list fin_maps.

Open Scope Z_scope.

(** ** Go machine arithmetic *)

Module GoInt.

(** Two's complement wrap-around of a [w]-bit signed integer. *)
Definition wrap (w : Z) (x : Z) : Z :=
  (x + 2 ^ (w - 1)) mod 2 ^ w - 2 ^ (w - 1).

(** [int] is 64 bits wide on the platforms the program targets. *)
Definition add (a b : Z) : Z := wrap 64 (a + b).
Definition sub (a b : Z) : Z := wrap 64 (a - b).

(** Go's [%] truncates toward zero. *)
Definition rem (a b : Z) : Z := Z.rem a b.

(** [rune] is [int32]; [byte] is [uint8]. *)
Definition rune_sub (a b : Z) : Z := wrap 32 (a - b).
Definition rune_of_int (x : Z) : Z := wrap 32 x.
Definition byte_sub (a b : Z) : Z := (a - b) mod 256.

Definition in_int (x : Z) : Prop := - 2 ^ 63 <= x < 2 ^ 63.

End GoInt.

(** ** Runes and strings *)

Definition rune_A : Z := 65.
Definition rune_Z : Z := 90.

(** A Go string is a sequence of bytes; [s[i]] panics outside [0, len(s)).
    [None] stands for that panic. *)
Definition byteAt (s : string) (i : Z) : option Z :=
  if i <? 0 then None
  else match String.get (Z.to_nat i) s with
       | Some a => Some (Z.of_N (N_of_ascii a))
       | None => None
       end.

(** [unicode.ToUpper] of Go's standard library, restricted to what the range
    check that follows every call can observe: the ASCII branch is the
    library's own fast path; outside ASCII only U+0131 and U+017F have an
    upper case inside A-Z, and every other rune stays outside A-Z whatever
    its upper case is, so it is left as it is. *)
Definition toUpper (r : Z) : Z :=
  if (97 <=? r) && (r <=? 122) then r - 32
  else if r =? 305 then 73
  else if r =? 383 then 83
  else r.

(** ** Data model *)

Record Rotor := mkRotor {
  name : string;
  wiring : string;
  position : Z;
  notch : Z;
  ringSetting : Z
}.

(** The array [[3]Rotor]; its indices are the constants 0, 1, 2. *)
Inductive slot := Slot0 | Slot1 | Slot2.

Record Rotors3 := mkRotors3 { rotor0 : Rotor; rotor1 : Rotor; rotor2 : Rotor }.

Record Enigma := mkEnigma {
  rotors : Rotors3;
  reflector : string;
  plugboard : gmap Z Z
}.

Definition rotorAt (e : Enigma) (i : slot) : Rotor :=
  match i with
  | Slot0 => rotor0 (rotors e)
  | Slot1 => rotor1 (rotors e)
  | Slot2 => rotor2 (rotors e)
  end.

Definition updRotor (e : Enigma) (i : slot) (f : Rotor -> Rotor) : Enigma :=
  let rs := rotors e in
  let rs' :=
    match i with
    | Slot0 => mkRotors3 (f (rotor0 rs)) (rotor1 rs) (rotor2 rs)
    | Slot1 => mkRotors3 (rotor0 rs) (f (rotor1 rs)) (rotor2 rs)
    | Slot2 => mkRotors3 (rotor0 rs) (rotor1 rs) (f (rotor2 rs))
    end in
  mkEnigma rs' (reflector e) (plugboard e).

Definition withPosition (p : Z) (r : Rotor) : Rotor :=
  mkRotor (name r) (wiring r) p (notch r) (ringSetting r).

Definition withRingSetting (s : Z) (r : Rotor) : Rotor :=
  mkRotor (name r) (wiring r) (position r) (notch r) s.

Definition withPlugboard (e : Enigma) (pb : gmap Z Z) : Enigma :=
  mkEnigma (rotors e) (reflector e) pb.

(** ** Static tables *)

Definition rotorWiringsTable : list (string * string) :=
  [ ("I",   "EKMFLGDQVZNTOWYHXUSPAIBRCJ");
    ("II",  "AJDKSIRUXBLHWTMCQGZNPYFVOE");
    ("III", "BDFHJLCPRTXVZNYEIWGAKMUSQO");
    ("IV",  "ESOVPZJAYQUIRHXLNFTGKDCMWB");
    ("V",   "VZBRGITYUPSDNHLXAWMJQOFECK") ]%string.

Definition rotorNotchesTable : list (string * Z) :=
  [ ("I", 17); ("II", 5); ("III", 22); ("IV", 10); ("V", 26) ]%string.

Definition reflectorsTable : list (string * string) :=
  [ ("A", "EJMZALYXVBWFCRQUONTSPIKHGD");
    ("B", "YRUHQSLDPXNGOKMIEBFZCWVJAT");
    ("C", "FVPJIAOYEDRZXWGCTKUQSBNMHL") ]%string.

Definition rotorWirings : gmap string string := list_to_map rotorWiringsTable.
Definition rotorNotches : gmap string Z := list_to_map rotorNotchesTable.
Definition reflectors : gmap string string := list_to_map reflectorsTable.

(** ** Errors

    The program reports errors as messages; one constructor per message. *)
Inductive error :=
| WrongRotorCount                 (* exactly three rotors must be specified *)
| UnknownReflector (n : string)   (* invalid reflector type: %s *)
| UnknownRotor (n : string)       (* invalid rotor type: %s *)
| PositionOutOfRange              (* rotor positions must be between 1 and 26 *)
| RingOutOfRange                  (* ring settings must be between 1 and 26 *)
| InvalidLetter                   (* plugboard connections must be between A and Z *)
| AlreadyConnected (c : Z).       (* letter %c is already connected *)

(** ** Construction and configuration *)

Definition newRotor (n : string) : error + Rotor :=
  match rotorWirings !! n with
  | None => inl (UnknownRotor n)
  | Some w => inr (mkRotor n w 0 (default 0 (rotorNotches !! n)) 0)
  end.

Definition NewEnigma (rotorNames : list string) (reflectorName : string)
  : error + Enigma :=
  match rotorNames with
  | [n0; n1; n2] =>
      match reflectors !! reflectorName with
      | None => inl (UnknownReflector reflectorName)
      | Some reflectorWiring =>
          match newRotor n0 with
          | inl err => inl err
          | inr r0 =>
              match newRotor n1 with
              | inl err => inl err
              | inr r1 =>
                  match newRotor n2 with
                  | inl err => inl err
                  | inr r2 =>
                      inr (mkEnigma (mkRotors3 r0 r1 r2) reflectorWiring ∅)
                  end
              end
          end
      end
  | _ => inl WrongRotorCount
  end.

Definition Reset (e : Enigma) : Enigma :=
  fold_left (fun e i => updRotor e i (withPosition 0)) [Slot0; Slot1; Slot2] e.

Definition outside_1_26 (x : Z) : bool := (x <? 1) || (x >? 26).

(** The setters return the machine after the call together with the error,
    [None] for Go's [nil]. *)
Definition SetRotorPositions (e : Enigma) (pos1 pos2 pos3 : Z)
  : Enigma * option error :=
  if outside_1_26 pos1 || outside_1_26 pos2 || outside_1_26 pos3
  then (e, Some PositionOutOfRange)
  else
    let e := updRotor e Slot0 (withPosition (GoInt.sub pos1 1)) in
    let e := updRotor e Slot1 (withPosition (GoInt.sub pos2 1)) in
    let e := updRotor e Slot2 (withPosition (GoInt.sub pos3 1)) in
    (e, None).

Definition SetRingSettings (e : Enigma) (r1 r2 r3 : Z)
  : Enigma * option error :=
  if outside_1_26 r1 || outside_1_26 r2 || outside_1_26 r3
  then (e, Some RingOutOfRange)
  else
    let e := updRotor e Slot0 (withRingSetting (GoInt.sub r1 1)) in
    let e := updRotor e Slot1 (withRingSetting (GoInt.sub r2 1)) in
    let e := updRotor e Slot2 (withRingSetting (GoInt.sub r3 1)) in
    (e, None).

Definition outside_A_Z (c : Z) : bool := (c <? rune_A) || (c >? rune_Z).

Definition AddPlugboardConnection (e : Enigma) (a b : Z)
  : Enigma * option error :=
  let a := toUpper a in
  let b := toUpper b in
  if outside_A_Z a || outside_A_Z b then (e, Some InvalidLetter)
  else match plugboard e !! a with
       | Some _ => (e, Some (AlreadyConnected a))
       | None =>
           match plugboard e !! b with
           | Some _ => (e, Some (AlreadyConnected b))
           | None =>
               let e := withPlugboard e (<[a := b]> (plugboard e)) in
               let e := withPlugboard e (<[b := a]> (plugboard e)) in
               (e, None)
           end
       end.

(** ** Stepping *)

Definition advance (r : Rotor) : Rotor :=
  withPosition (GoInt.rem (GoInt.add (position r) 1) 26) r.

Definition atNotch (r : Rotor) : bool :=
  position r =? GoInt.sub (notch r) 1.

Definition rotateRotors (e : Enigma) : Enigma :=
  let e :=
    if atNotch (rotorAt e Slot1) then
      let e := updRotor e Slot1 advance in
      updRotor e Slot0 advance
    else if atNotch (rotorAt e Slot2) then
      updRotor e Slot1 advance
    else e in
  updRotor e Slot2 advance.

(** ** Substitution *)

Definition plug (pb : gmap Z Z) (c : Z) : Z :=
  match pb !! c with
  | Some val => val
  | None => c
  end.

Definition offsetOf (r : Rotor) : Z :=
  GoInt.rem (GoInt.add (GoInt.sub (position r) (ringSetting r)) 26) 26.

(** One iteration of the first loop: right to left through a rotor. *)
Definition forwardRotor (r : Rotor) (pos : Z) : option Z :=
  let offset := offsetOf r in
  let pos := GoInt.rem (GoInt.add pos offset) 26 in
  match byteAt (wiring r) pos with
  | None => None
  | Some b =>
      let newPos := GoInt.byte_sub b rune_A in
      Some (GoInt.rem (GoInt.add (GoInt.sub newPos offset) 26) 26)
  end.

(** The inner search [for j := 0; j < 26; j++]: [n] iterations are left and
    the next index is [j]; a match assigns [j] and breaks, and without any
    match [pos] stays. *)
Fixpoint scanWiring (w : string) (pos : Z) (n : nat) (j : Z) : option Z :=
  match n with
  | O => Some pos
  | S n' =>
      match byteAt w j with
      | None => None
      | Some b =>
          if GoInt.byte_sub b rune_A =? pos then Some j
          else scanWiring w pos n' (j + 1)
      end
  end.

(** One iteration of the second loop: left to right through a rotor. *)
Definition backwardRotor (r : Rotor) (pos : Z) : option Z :=
  let offset := offsetOf r in
  let pos := GoInt.rem (GoInt.add pos offset) 26 in
  match scanWiring (wiring r) pos 26 0 with
  | None => None
  | Some pos => Some (GoInt.rem (GoInt.add (GoInt.sub pos offset) 26) 26)
  end.

Definition reflect (refl : string) (pos : Z) : option Z :=
  match byteAt refl pos with
  | None => None
  | Some b => Some (GoInt.byte_sub b rune_A)
  end.

Definition throughRotors (step : Rotor -> Z -> option Z) (e : Enigma)
  (order : list slot) (pos : Z) : option Z :=
  fold_left (fun acc i => acc ≫= step (rotorAt e i)) order (Some pos).

(** The part of [encryptChar] after the rotation, on the letter index. *)
Definition substitute (e : Enigma) (pos : Z) : option Z :=
  pos ← throughRotors forwardRotor e [Slot2; Slot1; Slot0] pos;
  pos ← reflect (reflector e) pos;
  throughRotors backwardRotor e [Slot0; Slot1; Slot2] pos.

Definition encryptChar (e : Enigma) (c : Z) : option (Enigma * Z) :=
  if outside_A_Z c then Some (e, c)
  else
    let e := rotateRotors e in
    let c := plug (plugboard e) c in
    let pos := GoInt.rune_sub c rune_A in
    match substitute e pos with
    | None => None
    | Some pos =>
        let result := GoInt.rune_of_int (GoInt.add pos rune_A) in
        Some (e, plug (plugboard e) result)
    end.

(** The caller's loop: one [encryptChar] per character, in order. *)
Fixpoint encryptRunes (e : Enigma) (cs : list Z) : option (Enigma * list Z) :=
  match cs with
  | [] => Some (e, [])
  | c :: cs' =>
      match encryptChar e c with
      | None => None
      | Some (e1, r) =>
          match encryptRunes e1 cs' with
          | None => None
          | Some (e2, rs) => Some (e2, r :: rs)
          end
      end
  end.

(** ** Reachable machines: built by [NewEnigma], then driven through the API *)

Inductive reachable : Enigma -> Prop :=
| reach_new names refl e :
    NewEnigma names refl = inr e -> reachable e
| reach_reset e :
    reachable e -> reachable (Reset e)
| reach_positions e p1 p2 p3 :
    reachable e -> reachable (SetRotorPositions e p1 p2 p3).1
| reach_rings e r1 r2 r3 :
    reachable e -> reachable (SetRingSettings e r1 r2 r3).1
| reach_plug e a b :
    reachable e -> reachable (AddPlugboardConnection e a b).1
| reach_encrypt e c e' r :
    reachable e -> encryptChar e c = Some (e', r) -> reachable e'.

(** Bytes of a Go string. *)
Definition runes (s : string) : list Z :=
  map (fun a => Z.of_N (N_of_ascii a)) (list_ascii_of_string s).

(** ** Properties of the tables as predicates that compute *)

Definition isLetter (c : Z) : Prop := rune_A <= c <= rune_Z.
Definition isIndex (x : Z) : Prop := 0 <= x < 26.

(** Each of the letters A-Z occurs exactly once among the 26 bytes. *)
Definition bijective_wiring (w : string) : Prop :=
  String.length w = 26%nat /\
  forall c, isLetter c -> count_occ Z.eq_dec (runes w) c = 1%nat.

Definition bijective_wiringb (w : string) : bool :=
  (String.length w =? 26)%nat &&
  forallb (fun c => (count_occ Z.eq_dec (runes w) c =? 1)%nat) (seqZ rune_A 26).

Definition inIndexb (x : Z) : bool := (0 <=? x) && (x <? 26).

(** The wiring read left to right and the search of the second loop undo
    each other on every index. *)
Definition wiring_okb (w : string) : bool :=
  forallb (fun x =>
    match byteAt w x with
    | Some b =>
        let y := GoInt.byte_sub b rune_A in
        inIndexb y &&
        match scanWiring w y 26 0 with Some j => j =? x | None => false end
    | None => false
    end &&
    match scanWiring w x 26 0 with
    | Some j =>
        inIndexb j &&
        match byteAt w j with
        | Some b => GoInt.byte_sub b rune_A =? x
        | None => false
        end
    | None => false
    end) (seqZ 0 26).

(** The reflector maps indices to indices, swaps them in pairs and fixes
    none. *)
Definition reflector_okb (w : string) : bool :=
  forallb (fun x =>
    match reflect w x with
    | Some y =>
        inIndexb y && negb (y =? x) &&
        match reflect w y with Some z => z =? x | None => false end
    | None => false
    end) (seqZ 0 26).

(** ** Well-formed machines

    What every machine built through the API satisfies; the substitution
    lemmas need no more than this. *)

Definition rotor_ok (r : Rotor) : Prop :=
  wiring_okb (wiring r) = true /\
  isIndex (position r) /\ isIndex (ringSetting r) /\
  1 <= notch r <= 26.

Definition plugboard_ok (pb : gmap Z Z) : Prop :=
  forall k v, pb !! k = Some v -> isLetter k /\ pb !! v = Some k.

Definition wf (e : Enigma) : Prop :=
  (forall i, rotor_ok (rotorAt e i)) /\
  reflector_okb (reflector e) = true /\
  plugboard_ok (plugboard e).

Definition ranges_ok (e : Enigma) : Prop :=
  forall i, isIndex (position (rotorAt e i)) /\
            isIndex (ringSetting (rotorAt e i)).

(** Two machines that differ at most in their rotor positions. *)
Definition same_settings (e e' : Enigma) : Prop :=
  (forall i, exists p, rotorAt e' i = withPosition p (rotorAt e i)) /\
  reflector e' = reflector e /\ plugboard e' = plugboard e.

(** ** The rotation step as the specification words it

    Middle rotor at its notch: middle and left advance; otherwise right
    rotor at its notch: middle advances; the right rotor always advances;
    nothing else changes. *)

Definition next (p : Z) : Z := (p + 1) mod 26.

Definition stepping_spec (e : Enigma) : Enigma :=
  let l := rotorAt e Slot0 in
  let m := rotorAt e Slot1 in
  let r := rotorAt e Slot2 in
  let middle_at_notch := position m =? notch m - 1 in
  let right_at_notch := position r =? notch r - 1 in
  let l' := if middle_at_notch then withPosition (next (position l)) l else l in
  let m' := if middle_at_notch || right_at_notch
            then withPosition (next (position m)) m else m in
  let r' := withPosition (next (position r)) r in
  mkEnigma (mkRotors3 l' m' r') (reflector e) (plugboard e).

(** Putting the rotors of [e1] back to the positions [e] has, through the
    setter and its 1-based arguments. *)
Definition restorePositions (e1 e : Enigma) : Enigma :=
  (SetRotorPositions e1
     (position (rotorAt e Slot0) + 1)
     (position (rotorAt e Slot1) + 1)
     (position (rotorAt e Slot2) + 1)).1.

(** The closed range of the human-facing arguments of the two setters. *)
Definition all_1_26 (a b c : Z) : Prop :=
  1 <= a <= 26 /\ 1 <= b <= 26 /\ 1 <= c <= 26.

Definition setPositions3 (e : Enigma) (p0 p1 p2 : Z) : Enigma :=
  mkEnigma (mkRotors3 (withPosition p0 (rotorAt e Slot0))
                      (withPosition p1 (rotorAt e Slot1))
                      (withPosition p2 (rotorAt e Slot2)))
           (reflector e) (plugboard e).

Definition setRings3 (e : Enigma) (s0 s1 s2 : Z) : Enigma :=
  mkEnigma (mkRotors3 (withRingSetting s0 (rotorAt e Slot0))
                      (withRingSetting s1 (rotorAt e Slot1))
                      (withRingSetting s2 (rotorAt e Slot2)))
           (reflector e) (plugboard e).

(** The three positions, left to right. *)
Definition positions (e : Enigma) : Z * Z * Z :=
  (position (rotorAt e Slot0), position (rotorAt e Slot1),
   position (rotorAt e Slot2)).

(** One call of the API, seen as a transition between machines. *)
Inductive api_step : Enigma -> Enigma -> Prop :=
| step_reset e : api_step e (Reset e)
| step_positions e p1 p2 p3 : api_step e (SetRotorPositions e p1 p2 p3).1
| step_rings e r1 r2 r3 : api_step e (SetRingSettings e r1 r2 r3).1
| step_plug e a b : api_step e (AddPlugboardConnection e a b).1
| step_encrypt e c e' r : encryptChar e c = Some (e', r) -> api_step e e'.

(** The machine of the default command line: rotors I, II, III, reflector B,
    every position and ring setting at its first value, no plug. *)
Definition defaultMachine : Enigma :=
  mkEnigma
    (mkRotors3 (mkRotor "I" "EKMFLGDQVZNTOWYHXUSPAIBRCJ" 0 17 0)
               (mkRotor "II" "AJDKSIRUXBLHWTMCQGZNPYFVOE" 0 5 0)
               (mkRotor "III" "BDFHJLCPRTXVZNYEIWGAKMUSQO" 0 22 0))
    "YRUHQSLDPXNGOKMIEBFZCWVJAT" ∅.

(** ** The command line driver ([main] and [processIO])

    Flag parsing, [strings.Split], [strings.Fields] and the scanner belong
    to the standard library: the driver is modelled from their results on. *)

(** An error of [main]: one of the API, or its own message about a plug
    pair whose length is not 2. *)
Inductive mainError :=
| ConfigError (err : error)
| InvalidPlugPair (field : string).   (* Error: Invalid plugboard pair: %s *)

Definition byteOf (a : ascii) : Z := Z.of_N (N_of_ascii a).

(** The loop of [main] over the fields of the plugboard flag; the two bytes
    of a field of length 2 are converted to runes. The first error ends it. *)
Fixpoint plugPairs (e : Enigma) (pairs : list string) : mainError + Enigma :=
  match pairs with
  | [] => inr e
  | field :: rest =>
      match field with
      | String a (String b EmptyString) =>
          match AddPlugboardConnection e (byteOf a) (byteOf b) with
          | (_, Some err) => inl (ConfigError err)
          | (e', None) => plugPairs e' rest
          end
      | _ => inl (InvalidPlugPair field)
      end
  end.

(** [main] up to the call of [processIO]: the machine it configures, or the
    error it exits with. *)
Definition configure (rotorNames : list string) (reflectorType : string)
  (pos1 pos2 pos3 ring1 ring2 ring3 : Z) (pairs : list string)
  : mainError + Enigma :=
  match NewEnigma rotorNames reflectorType with
  | inl err => inl (ConfigError err)
  | inr e =>
      let e := Reset e in
      match SetRotorPositions e pos1 pos2 pos3 with
      | (_, Some err) => inl (ConfigError err)
      | (e, None) =>
          match SetRingSettings e ring1 ring2 ring3 with
          | (_, Some err) => inl (ConfigError err)
          | (e, None) => plugPairs e pairs
          end
      end
  end.

Definition isAscii (c : Z) : Prop := 0 <= c < 128.

(** The body of the loop of [processIO] on one line of ASCII text, given as
    its characters: [strings.ToUpper], then one [encryptChar] per character. *)
Definition processLine (e : Enigma) (input : list Z)
  : option (Enigma * list Z) :=
  encryptRunes e (map toUpper input).

(** The loop of [processIO] over the lines the scanner yields, with a writer
    that accepts every line: the machine is carried from line to line. *)
Fixpoint processLines (e : Enigma) (lines : list (list Z))
  : option (Enigma * list (list Z)) :=
  match lines with
  | [] => Some (e, [])
  | input :: rest =>
      match processLine e input with
      | None => None
      | Some (e1, output) =>
          match processLines e1 rest with
          | None => None
          | Some (e2, outputs) => Some (e2, output :: outputs)
          end
      end
  end.

(** ** Vocabulary of the further properties *)

Definition rotorNamesKnown : list string := ["I"; "II"; "III"; "IV"; "V"]%string.
Definition reflectorNamesKnown : list string := ["A"; "B"; "C"]%string.

Definition ringSettings (e : Enigma) : Z * Z * Z :=
  (ringSetting (rotorAt e Slot0), ringSetting (rotorAt e Slot1),
   ringSetting (rotorAt e Slot2)).

Definition isLetterb (c : Z) : bool := negb (outside_A_Z c).

(** How many characters of a text are letters of A-Z. *)
Definition countLetters (cs : list Z) : nat :=
  length (List.filter isLetterb cs).

(** What one character becomes: a letter becomes another letter, any other
    character stays. *)
Definition letterwise (c r : Z) : Prop :=
  (isLetter c /\ isLetter r /\ r <> c) \/ (~ isLetter c /\ r = c).

(** A field of the plugboard flag that has been installed in a machine. *)
Definition fieldInstalled (e : Enigma) (field : string) : Prop :=
  exists a b,
    field = String a (String b EmptyString) /\
    plugboard e !! toUpper (byteOf a) = Some (toUpper (byteOf b)) /\
    plugboard e !! toUpper (byteOf b) = Some (toUpper (byteOf a)).

(** The wiring [w] has the letter of index [pos] at index [i]. *)
Definition wiredAt (w : string) (pos i : Z) : Prop :=
  exists b, byteAt w i = Some b /\ GoInt.byte_sub b rune_A = pos.

(** A letter of either case, as an ASCII code. *)
Definition isAsciiLetter (c : Z) : Prop := isLetter c \/ 97 <= c <= 122.

(** ** Facts about machine arithmetic *)

Lemma wrap64_id x : GoInt.in_int x -> GoInt.wrap 64 x = x.
Proof.
  unfold GoInt.in_int, GoInt.wrap. intros H.
  change (2 ^ (64 - 1)) with 9223372036854775808 in *.
  change (2 ^ 63) with 9223372036854775808 in *.
  change (2 ^ 64) with 18446744073709551616.
  rewrite Z.mod_small by lia. lia.
Qed.

Lemma wrap32_id x : - 2 ^ 31 <= x < 2 ^ 31 -> GoInt.wrap 32 x = x.
Proof.
  unfold GoInt.wrap. intros H.
  change (2 ^ (32 - 1)) with 2147483648 in *.
  change (2 ^ 31) with 2147483648 in *.
  change (2 ^ 32) with 4294967296.
  rewrite Z.mod_small by lia. lia.
Qed.

Lemma small_in_int x : -1000 <= x <= 1000 -> GoInt.in_int x.
Proof. unfold GoInt.in_int. change (2 ^ 63) with 9223372036854775808. lia. Qed.

Lemma add_small a b :
  -200 <= a <= 200 -> -200 <= b <= 200 -> GoInt.add a b = a + b.
Proof. intros. apply wrap64_id, small_in_int. lia. Qed.

Lemma sub_small a b :
  -200 <= a <= 200 -> -200 <= b <= 200 -> GoInt.sub a b = a - b.
Proof. intros. apply wrap64_id, small_in_int. lia. Qed.

Lemma rem_nonneg a : 0 <= a -> GoInt.rem a 26 = a mod 26.
Proof. intros H. unfold GoInt.rem. apply Z.rem_mod_nonneg; lia. Qed.

Lemma mod26_range a : 0 <= a mod 26 < 26.
Proof. apply Z.mod_pos_bound. lia. Qed.

(** Shifting an index by an offset and back, as both loops do. *)
Lemma shift_unshift o p :
  isIndex o -> isIndex p -> ((p + o) mod 26 - o + 26) mod 26 = p.
Proof. unfold isIndex. intros. Z.to_euclidean_division_equations. lia. Qed.

Lemma unshift_shift o p :
  isIndex o -> isIndex p -> ((p - o + 26) mod 26 + o) mod 26 = p.
Proof. unfold isIndex. intros. Z.to_euclidean_division_equations. lia. Qed.

(** ** Facts about the tables *)

Lemma forallb_seqZ (P : Z -> bool) (lo n x : Z) :
  forallb P (seqZ lo n) = true -> lo <= x < lo + n -> P x = true.
Proof.
  intros Hall Hx. rewrite forallb_forall in Hall. apply Hall.
  apply list_elem_of_In, elem_of_seqZ. lia.
Qed.

Lemma bijective_wiringb_sound w :
  bijective_wiringb w = true -> bijective_wiring w.
Proof.
  unfold bijective_wiringb, bijective_wiring, isLetter.
  intros [Hlen Hall]%andb_prop. split.
  - by apply Nat.eqb_eq.
  - intros c Hc. apply Nat.eqb_eq.
    apply (forallb_seqZ _ rune_A 26 c Hall). unfold rune_A, rune_Z in *. lia.
Qed.

Lemma rotorWirings_inv n w :
  rotorWirings !! n = Some w -> In (n, w) rotorWiringsTable.
Proof.
  intros H. apply list_elem_of_In. by apply elem_of_list_to_map_2.
Qed.

Lemma reflectors_inv n w :
  reflectors !! n = Some w -> In (n, w) reflectorsTable.
Proof.
  intros H. apply list_elem_of_In. by apply elem_of_list_to_map_2.
Qed.

Lemma rotorWirings_Forall (P : string -> bool) :
  forallb (fun nw => P nw.2) rotorWiringsTable = true ->
  forall n w, rotorWirings !! n = Some w -> P w = true.
Proof.
  intros Hall n w Hn. rewrite forallb_forall in Hall.
  apply (Hall (n, w)), rotorWirings_inv, Hn.
Qed.

Lemma reflectors_Forall (P : string -> bool) :
  forallb (fun nw => P nw.2) reflectorsTable = true ->
  forall n w, reflectors !! n = Some w -> P w = true.
Proof.
  intros Hall n w Hn. rewrite forallb_forall in Hall.
  apply (Hall (n, w)), reflectors_inv, Hn.
Qed.

Lemma rotorWirings_ok n w : rotorWirings !! n = Some w -> wiring_okb w = true.
Proof. apply (rotorWirings_Forall wiring_okb). by vm_compute. Qed.

Lemma reflectors_ok n w : reflectors !! n = Some w -> reflector_okb w = true.
Proof. apply (reflectors_Forall reflector_okb). by vm_compute. Qed.

Lemma rotorNotches_range n w :
  rotorWirings !! n = Some w -> 1 <= default 0 (rotorNotches !! n) <= 26.
Proof.
  intros H%rotorWirings_inv. simpl in H.
  repeat (destruct H as [[= <- <-] | H]; [by vm_compute |]). destruct H.
Qed.

(** C10. Every built-in rotor wiring (I to V) and every built-in reflector
    wiring (A, B, C) has 26 bytes among which each letter A-Z occurs exactly
    once. *)
Theorem tables_bijective :
  (forall n w, rotorWirings !! n = Some w -> bijective_wiring w) /\
  (forall n w, reflectors !! n = Some w -> bijective_wiring w).
Proof.
  split; intros n w Hn; apply bijective_wiringb_sound.
  - revert n w Hn. apply (rotorWirings_Forall bijective_wiringb). by vm_compute.
  - revert n w Hn. apply (reflectors_Forall bijective_wiringb). by vm_compute.
Qed.

Lemma tables_bijective_witness :
  bijective_wiring "EKMFLGDQVZNTOWYHXUSPAIBRCJ" /\
  bijective_wiring "YRUHQSLDPXNGOKMIEBFZCWVJAT".
Proof.
  split.
  - apply (proj1 tables_bijective "I"%string). reflexivity.
  - apply (proj2 tables_bijective "B"%string). reflexivity.
Defined.

(** C7. On every built-in reflector (A, B, C) and every index x in 0..25,
    the reflector lookup applied twice gives x back. *)
Theorem reflector_involution n w x :
  reflectors !! n = Some w -> 0 <= x < 26 ->
  exists y, reflect w x = Some y /\ reflect w y = Some x.
Proof.
  intros Hn Hx. pose proof (reflectors_ok n w Hn) as Hok.
  pose proof (forallb_seqZ _ 0 26 x Hok ltac:(lia)) as H. simpl in H.
  destruct (reflect w x) as [y|]; [|discriminate]. exists y. split; [done|].
  apply andb_prop in H as [_ H].
  destruct (reflect w y) as [z|]; [|discriminate].
  apply Z.eqb_eq in H. by subst.
Qed.

Lemma reflector_involution_witness :
  exists y, reflect "YRUHQSLDPXNGOKMIEBFZCWVJAT" 0 = Some y /\
            reflect "YRUHQSLDPXNGOKMIEBFZCWVJAT" y = Some 0.
Proof. apply (reflector_involution "B"%string); [reflexivity | lia]. Defined.

(** ** One rotor: the two passes undo each other *)

Lemma inIndexb_spec x : inIndexb x = true -> isIndex x.
Proof. unfold inIndexb, isIndex. intros [?%Z.leb_le ?%Z.ltb_lt]%andb_prop. lia. Qed.

Lemma wiring_ok_forward w x :
  wiring_okb w = true -> isIndex x ->
  exists b, byteAt w x = Some b /\
            isIndex (GoInt.byte_sub b rune_A) /\
            scanWiring w (GoInt.byte_sub b rune_A) 26 0 = Some x.
Proof.
  intros Hok Hx. unfold wiring_okb in Hok.
  apply (forallb_seqZ _ 0 26 x) in Hok; [|unfold isIndex in Hx; lia].
  cbv beta zeta in Hok. apply andb_prop in Hok as [H _].
  destruct (byteAt w x) as [b|]; [|discriminate]. exists b.
  apply andb_prop in H as [Hy H].
  destruct (scanWiring w (GoInt.byte_sub b rune_A) 26 0) as [j|]; [|discriminate].
  apply Z.eqb_eq in H. subst j.
  split; [done|]. split; [by apply inIndexb_spec|]. done.
Qed.

Lemma wiring_ok_backward w x :
  wiring_okb w = true -> isIndex x ->
  exists j b, scanWiring w x 26 0 = Some j /\ isIndex j /\
              byteAt w j = Some b /\ GoInt.byte_sub b rune_A = x.
Proof.
  intros Hok Hx. unfold wiring_okb in Hok.
  apply (forallb_seqZ _ 0 26 x) in Hok; [|unfold isIndex in Hx; lia].
  cbv beta zeta in Hok. apply andb_prop in Hok as [_ H].
  destruct (scanWiring w x 26 0) as [j|]; [|discriminate].
  apply andb_prop in H as [Hj H].
  destruct (byteAt w j) as [b|] eqn:Hb; [|discriminate].
  apply Z.eqb_eq in H. exists j, b.
  split; [done|]. split; [by apply inIndexb_spec|]. done.
Qed.

Lemma offsetOf_index r :
  isIndex (position r) -> isIndex (ringSetting r) ->
  offsetOf r = (position r - ringSetting r + 26) mod 26 /\ isIndex (offsetOf r).
Proof.
  unfold isIndex, offsetOf. intros Hp Hr.
  rewrite sub_small, add_small, rem_nonneg by lia.
  split; [done | apply mod26_range].
Qed.

Lemma shift_in o p :
  isIndex o -> isIndex p ->
  GoInt.rem (GoInt.add p o) 26 = (p + o) mod 26.
Proof. unfold isIndex. intros. rewrite add_small, rem_nonneg by lia. done. Qed.

Lemma shift_out o p :
  isIndex o -> isIndex p ->
  GoInt.rem (GoInt.add (GoInt.sub p o) 26) 26 = (p - o + 26) mod 26.
Proof.
  unfold isIndex. intros. rewrite sub_small, add_small, rem_nonneg by lia. done.
Qed.

Lemma forwardRotor_backward r pos :
  rotor_ok r -> isIndex pos ->
  exists y, forwardRotor r pos = Some y /\ isIndex y /\
            backwardRotor r y = Some pos.
Proof.
  intros (Hw & Hp & Hr & _) Hpos.
  destruct (offsetOf_index r Hp Hr) as [_ Ho].
  unfold forwardRotor, backwardRotor. cbv zeta.
  set (o := offsetOf r) in *.
  rewrite (shift_in o pos) by done.
  assert (Hq : isIndex ((pos + o) mod 26)) by apply mod26_range.
  destruct (wiring_ok_forward _ _ Hw Hq) as (b & Hb & Hy & Hscan).
  rewrite Hb. rewrite (shift_out o _) by done.
  eexists. split; [reflexivity|]. split; [apply mod26_range|].
  rewrite (shift_in o) by (done || apply mod26_range).
  rewrite unshift_shift by done. rewrite Hscan.
  rewrite (shift_out o _) by done. by rewrite shift_unshift.
Qed.

Lemma backwardRotor_forward r pos :
  rotor_ok r -> isIndex pos ->
  exists y, backwardRotor r pos = Some y /\ isIndex y /\
            forwardRotor r y = Some pos.
Proof.
  intros (Hw & Hp & Hr & _) Hpos.
  destruct (offsetOf_index r Hp Hr) as [_ Ho].
  unfold forwardRotor, backwardRotor. cbv zeta.
  set (o := offsetOf r) in *.
  rewrite (shift_in o pos) by done.
  assert (Hq : isIndex ((pos + o) mod 26)) by apply mod26_range.
  destruct (wiring_ok_backward _ _ Hw Hq) as (j & b & Hscan & Hj & Hb & Hy).
  rewrite Hscan. rewrite (shift_out o _) by done.
  eexists. split; [reflexivity|]. split; [apply mod26_range|].
  rewrite (shift_in o) by (done || apply mod26_range).
  rewrite unshift_shift by done. rewrite Hb, Hy.
  rewrite (shift_out o _) by done. by rewrite shift_unshift.
Qed.

Lemma reflector_ok_spec w x :
  reflector_okb w = true -> isIndex x ->
  exists y, reflect w x = Some y /\ isIndex y /\ y <> x /\ reflect w y = Some x.
Proof.
  intros Hok Hx. unfold reflector_okb in Hok.
  apply (forallb_seqZ _ 0 26 x) in Hok; [|unfold isIndex in Hx; lia].
  cbv beta in Hok.
  destruct (reflect w x) as [y|]; [|discriminate]. exists y.
  apply andb_prop in Hok as [[Hy Hne]%andb_prop H].
  destruct (reflect w y) as [z|]; [|discriminate].
  apply Z.eqb_eq in H. subst z.
  apply negb_true_iff, Z.eqb_neq in Hne.
  split; [done|]. split; [by apply inIndexb_spec|]. done.
Qed.

(** ** The whole substitution is a fixed-point-free involution *)

Lemma substitute_unfold e pos :
  substitute e pos =
    ((((((forwardRotor (rotorAt e Slot2) pos
            ≫= forwardRotor (rotorAt e Slot1))
           ≫= forwardRotor (rotorAt e Slot0))
          ≫= reflect (reflector e))
         ≫= backwardRotor (rotorAt e Slot0))
        ≫= backwardRotor (rotorAt e Slot1))
       ≫= backwardRotor (rotorAt e Slot2)).
Proof.
  unfold substitute, throughRotors. cbn [fold_left mbind option_bind].
  destruct (forwardRotor (rotorAt e Slot2) pos) as [a|]; [|reflexivity].
  cbn [mbind option_bind].
  destruct (forwardRotor (rotorAt e Slot1) a) as [b|]; [|reflexivity].
  cbn [mbind option_bind].
  destruct (forwardRotor (rotorAt e Slot0) b) as [c|]; [|reflexivity].
  cbn [mbind option_bind].
  destruct (reflect (reflector e) c) as [d|]; reflexivity.
Qed.

Lemma substitute_involution e pos :
  wf e -> isIndex pos ->
  exists y, substitute e pos = Some y /\ isIndex y /\ y <> pos /\
            substitute e y = Some pos.
Proof.
  intros (Hrot & Hrefl & _) Hpos.
  destruct (forwardRotor_backward _ pos (Hrot Slot2) Hpos) as (a & Fa & Ia & Ba).
  destruct (forwardRotor_backward _ a (Hrot Slot1) Ia) as (b & Fb & Ib & Bb).
  destruct (forwardRotor_backward _ b (Hrot Slot0) Ib) as (c & Fc & Ic & Bc).
  destruct (reflector_ok_spec _ c Hrefl Ic) as (d & Rc & Id & Hdc & Rd).
  destruct (backwardRotor_forward _ d (Hrot Slot0) Id) as (b' & Bd & Ib' & Fb').
  destruct (backwardRotor_forward _ b' (Hrot Slot1) Ib') as (a' & Bb' & Ia' & Fa').
  destruct (backwardRotor_forward _ a' (Hrot Slot2) Ia') as (y & Ba' & Iy & Fy).
  exists y. rewrite !substitute_unfold.
  rewrite Fa, Fy. cbn [mbind option_bind].
  rewrite Fb, Fa'. cbn [mbind option_bind].
  rewrite Fc, Fb'. cbn [mbind option_bind].
  rewrite Rc, Rd. cbn [mbind option_bind].
  rewrite Bd, Bc. cbn [mbind option_bind].
  rewrite Bb', Bb. cbn [mbind option_bind].
  split; [done|]. split; [done|]. split; [|done].
  intros ->. rewrite Fa in Fy. injection Fy as ->.
  rewrite Fb in Fa'. injection Fa' as ->.
  rewrite Fc in Fb'. injection Fb' as ->. done.
Qed.

(** ** The plugboard *)

Lemma plug_involution pb c :
  plugboard_ok pb -> isLetter c ->
  isLetter (plug pb c) /\ plug pb (plug pb c) = c.
Proof.
  intros Hpb Hc. unfold plug.
  destruct (pb !! c) as [v|] eqn:Hv.
  - destruct (Hpb _ _ Hv) as [_ Hback].
    destruct (Hpb _ _ Hback) as [Hlv _]. by rewrite Hback.
  - by rewrite Hv.
Qed.

Lemma plugboard_ok_empty : plugboard_ok ∅.
Proof. intros k v H. by rewrite lookup_empty in H. Qed.

Lemma plugboard_ok_insert pb a b :
  plugboard_ok pb -> isLetter a -> isLetter b ->
  pb !! a = None -> pb !! b = None ->
  plugboard_ok (<[b := a]> (<[a := b]> pb)).
Proof.
  intros Hpb Ha Hb Na Nb k v Hk.
  destruct (decide (k = b)) as [->|Hkb].
  - rewrite lookup_insert_eq in Hk. injection Hk as <-. split; [done|].
    destruct (decide (a = b)) as [->|Hab].
    + by rewrite lookup_insert_eq.
    + by rewrite lookup_insert_ne, lookup_insert_eq.
  - rewrite lookup_insert_ne in Hk by done.
    destruct (decide (k = a)) as [->|Hka].
    + rewrite lookup_insert_eq in Hk. injection Hk as <-. split; [done|].
      by rewrite lookup_insert_eq.
    + rewrite lookup_insert_ne in Hk by done.
      destruct (Hpb _ _ Hk) as [Hlk Hback]. split; [done|].
      rewrite !lookup_insert_ne; [done | congruence | congruence].
Qed.

(** ** Stepping *)

Lemma withPosition_same r : withPosition (position r) r = r.
Proof. by destruct r. Qed.

Lemma advance_next r :
  isIndex (position r) -> advance r = withPosition (next (position r)) r.
Proof.
  unfold isIndex, advance, next. intros Hp.
  by rewrite add_small, rem_nonneg by lia.
Qed.

Lemma atNotch_eq r :
  1 <= notch r <= 26 -> atNotch r = (position r =? notch r - 1).
Proof. unfold atNotch. intros Hn. by rewrite sub_small by lia. Qed.

Lemma rotateRotors_spec e :
  (forall i, isIndex (position (rotorAt e i)) /\ 1 <= notch (rotorAt e i) <= 26) ->
  rotateRotors e = stepping_spec e.
Proof.
  intros H.
  destruct (H Slot0) as [P0 _], (H Slot1) as [P1 N1], (H Slot2) as [P2 N2].
  unfold rotateRotors, stepping_spec.
  rewrite (atNotch_eq _ N1), (atNotch_eq _ N2).
  destruct e as [[l m r] refl pb]. cbn in *.
  destruct (position m =? notch m - 1), (position r =? notch r - 1);
    cbn; unfold updRotor; cbn; rewrite ?advance_next by done; reflexivity.
Qed.

Lemma next_index p : isIndex (next p).
Proof. apply mod26_range. Qed.

Lemma rotor_ok_withPosition r p :
  rotor_ok r -> isIndex p -> rotor_ok (withPosition p r).
Proof. intros (Hw & _ & Hr & Hn) Hp. unfold rotor_ok. cbn. tauto. Qed.

Lemma rotor_ok_withRingSetting r s :
  rotor_ok r -> isIndex s -> rotor_ok (withRingSetting s r).
Proof. intros (Hw & Hp & _ & Hn) Hs. unfold rotor_ok. cbn. tauto. Qed.

Lemma wf_updRotor e i f :
  wf e -> rotor_ok (f (rotorAt e i)) -> wf (updRotor e i f).
Proof.
  intros (Hrot & Hrefl & Hpb) Hf. split; [|done].
  intros j. pose proof (Hrot j) as Hj. destruct i, j; done.
Qed.

Lemma wf_rotor e i : wf e -> rotor_ok (rotorAt e i).
Proof. intros [H _]. apply H. Qed.

Lemma wf_stepping e : wf e -> wf (stepping_spec e).
Proof.
  intros (Hrot & Hrefl & Hpb). split; [|done].
  pose proof (Hrot Slot0) as H0. pose proof (Hrot Slot1) as H1.
  pose proof (Hrot Slot2) as H2.
  unfold stepping_spec. intros [|  |]; cbn -[next] in *.
  - destruct (_ =? _); auto using rotor_ok_withPosition, next_index.
  - destruct (_ || _); auto using rotor_ok_withPosition, next_index.
  - auto using rotor_ok_withPosition, next_index.
Qed.

Lemma wf_notches e i :
  wf e -> isIndex (position (rotorAt e i)) /\ 1 <= notch (rotorAt e i) <= 26.
Proof. intros He. destruct (wf_rotor e i He) as (_ & Hp & _ & Hn). done. Qed.

Lemma wf_rotateRotors e : wf e -> wf (rotateRotors e).
Proof.
  intros He. rewrite rotateRotors_spec by (intros i; by apply wf_notches).
  by apply wf_stepping.
Qed.

Lemma same_settings_refl e : same_settings e e.
Proof.
  split; [|done]. intros i. exists (position (rotorAt e i)).
  by rewrite withPosition_same.
Qed.

Lemma same_settings_trans e1 e2 e3 :
  same_settings e1 e2 -> same_settings e2 e3 -> same_settings e1 e3.
Proof.
  intros (H1 & R1 & P1) (H2 & R2 & P2). split; [|split; congruence].
  intros i. destruct (H1 i) as [p Hp], (H2 i) as [q Hq].
  exists q. rewrite Hq, Hp. reflexivity.
Qed.

Lemma same_settings_stepping e : same_settings e (stepping_spec e).
Proof.
  split; [|done]. unfold stepping_spec. intros [| |]; cbn -[next].
  - destruct (_ =? _); eauto. eexists. symmetry. apply withPosition_same.
  - destruct (_ || _); eauto. eexists. symmetry. apply withPosition_same.
  - eauto.
Qed.

(** ** One letter through the machine *)

Lemma outside_A_Z_letter c : isLetter c -> outside_A_Z c = false.
Proof. unfold isLetter, outside_A_Z, rune_A, rune_Z. lia. Qed.

Lemma outside_A_Z_other c : ~ isLetter c -> outside_A_Z c = true.
Proof. unfold isLetter, outside_A_Z, rune_A, rune_Z. lia. Qed.

Lemma letter_to_index c :
  isLetter c -> GoInt.rune_sub c rune_A = c - 65 /\ isIndex (c - 65).
Proof.
  unfold isLetter, isIndex, GoInt.rune_sub, rune_A, rune_Z. intros Hc.
  rewrite wrap32_id; [lia|]. change (2 ^ 31) with 2147483648. lia.
Qed.

Lemma index_to_letter y :
  isIndex y ->
  GoInt.rune_of_int (GoInt.add y rune_A) = y + 65 /\ isLetter (y + 65).
Proof.
  unfold isLetter, isIndex, GoInt.rune_of_int, rune_A, rune_Z. intros Hy.
  rewrite add_small by lia.
  rewrite wrap32_id; [lia|]. change (2 ^ 31) with 2147483648. lia.
Qed.

Lemma encryptChar_letter e c :
  wf e -> isLetter c ->
  exists r, encryptChar e c = Some (rotateRotors e, r) /\
            isLetter r /\ r <> c /\
            encryptChar e r = Some (rotateRotors e, c).
Proof.
  intros He Hc. pose proof (wf_rotateRotors e He) as He1.
  unfold encryptChar. cbv zeta. rewrite (outside_A_Z_letter c Hc).
  set (e1 := rotateRotors e) in *.
  pose proof He1 as (_ & _ & Hpb).
  destruct (plug_involution _ c Hpb Hc) as [Hc1 Hcc].
  set (c1 := plug (plugboard e1) c) in *.
  destruct (letter_to_index c1 Hc1) as [-> Hpos].
  destruct (substitute_involution e1 _ He1 Hpos) as (y & Hy & Iy & Hne & Hback).
  rewrite Hy. destruct (index_to_letter y Iy) as [-> Hl].
  destruct (plug_involution _ _ Hpb Hl) as [Hr Hrr].
  exists (plug (plugboard e1) (y + 65)).
  split; [done|]. split; [done|]. split.
  - intros Heq. apply Hne. rewrite Heq in Hrr.
    change (c1 = y + 65) in Hrr. lia.
  - rewrite (outside_A_Z_letter _ Hr), Hrr.
    destruct (letter_to_index _ Hl) as [-> _].
    replace (y + 65 - 65) with y by lia. rewrite Hback.
    destruct (index_to_letter _ Hpos) as [-> _].
    replace (c1 - 65 + 65) with c1 by lia. by rewrite Hcc.
Qed.

(** ** Invariants of the API *)

Lemma newRotor_ok n r : newRotor n = inr r -> rotor_ok r.
Proof.
  unfold newRotor. destruct (rotorWirings !! n) as [w|] eqn:Hw; [|done].
  intros [= <-]. unfold rotor_ok, isIndex. cbn.
  split; [by eapply rotorWirings_ok|]. split; [lia|]. split; [lia|].
  by eapply rotorNotches_range.
Qed.

Lemma wf_NewEnigma names refl e : NewEnigma names refl = inr e -> wf e.
Proof.
  unfold NewEnigma.
  destruct names as [|n0 [|n1 [|n2 [|? ?]]]]; try done.
  destruct (reflectors !! refl) as [w|] eqn:Hw; [|done].
  destruct (newRotor n0) as [|r0] eqn:H0; [done|].
  destruct (newRotor n1) as [|r1] eqn:H1; [done|].
  destruct (newRotor n2) as [|r2] eqn:H2; [done|].
  intros [= <-]. split; [|split].
  - intros [| |]; cbn; by eapply newRotor_ok.
  - cbn. by eapply reflectors_ok.
  - apply plugboard_ok_empty.
Qed.

Lemma zero_index : isIndex 0.
Proof. unfold isIndex. lia. Qed.

Lemma wf_setPosition e i p :
  wf e -> isIndex p -> wf (updRotor e i (withPosition p)).
Proof.
  intros He Hp. apply wf_updRotor; [done|].
  apply rotor_ok_withPosition; [by apply wf_rotor | done].
Qed.

Lemma wf_setRingSetting e i s :
  wf e -> isIndex s -> wf (updRotor e i (withRingSetting s)).
Proof.
  intros He Hs. apply wf_updRotor; [done|].
  apply rotor_ok_withRingSetting; [by apply wf_rotor | done].
Qed.

Lemma wf_Reset e : wf e -> wf (Reset e).
Proof.
  intros He. unfold Reset. cbn [fold_left].
  auto using wf_setPosition, zero_index.
Qed.

Lemma outside_1_26_false x : outside_1_26 x = false <-> 1 <= x <= 26.
Proof. unfold outside_1_26. lia. Qed.

Lemma setter_guard a b c :
  outside_1_26 a || outside_1_26 b || outside_1_26 c = false <->
  (1 <= a <= 26 /\ 1 <= b <= 26 /\ 1 <= c <= 26).
Proof. unfold outside_1_26. lia. Qed.

Lemma setter_value x : 1 <= x <= 26 -> GoInt.sub x 1 = x - 1.
Proof. intros Hx. by rewrite sub_small by lia. Qed.

Lemma setter_index x : 1 <= x <= 26 -> isIndex (GoInt.sub x 1).
Proof. intros Hx. rewrite setter_value by done. unfold isIndex. lia. Qed.

Lemma wf_SetRotorPositions e a b c : wf e -> wf (SetRotorPositions e a b c).1.
Proof.
  intros He. unfold SetRotorPositions.
  destruct (_ || _) eqn:Hg; [done|]. apply setter_guard in Hg as (Ha & Hb & Hc).
  cbn [fst].
  repeat (apply wf_setPosition; [| by apply setter_index]). done.
Qed.

Lemma wf_SetRingSettings e a b c : wf e -> wf (SetRingSettings e a b c).1.
Proof.
  intros He. unfold SetRingSettings.
  destruct (_ || _) eqn:Hg; [done|]. apply setter_guard in Hg as (Ha & Hb & Hc).
  cbn [fst].
  repeat (apply wf_setRingSetting; [| by apply setter_index]). done.
Qed.

Lemma plug_guard a b :
  outside_A_Z a || outside_A_Z b = false <-> isLetter a /\ isLetter b.
Proof. unfold outside_A_Z, isLetter, rune_A, rune_Z. lia. Qed.

Lemma wf_AddPlugboardConnection e a b :
  wf e -> wf (AddPlugboardConnection e a b).1.
Proof.
  intros He. unfold AddPlugboardConnection. cbv zeta.
  destruct (_ || _) eqn:Hg; [done|]. apply plug_guard in Hg as [Ha Hb].
  destruct (plugboard e !! toUpper a) eqn:Na; [done|].
  destruct (plugboard e !! toUpper b) eqn:Nb; [done|].
  destruct He as (Hrot & Hrefl & Hpb). split; [done|]. split; [done|].
  cbn. by apply plugboard_ok_insert.
Qed.

Lemma wf_encryptChar e c e' r :
  wf e -> encryptChar e c = Some (e', r) -> wf e'.
Proof.
  intros He Henc. destruct (decide (isLetter c)) as [Hc|Hc].
  - destruct (encryptChar_letter e c He Hc) as (r' & Hr' & _).
    rewrite Hr' in Henc. injection Henc as <- _. by apply wf_rotateRotors.
  - unfold encryptChar in Henc. rewrite (outside_A_Z_other c Hc) in Henc.
    by injection Henc as <- _.
Qed.

Lemma reachable_wf e : reachable e -> wf e.
Proof.
  induction 1;
    eauto using wf_NewEnigma, wf_Reset, wf_SetRotorPositions,
      wf_SetRingSettings, wf_AddPlugboardConnection, wf_encryptChar.
Qed.

(** ** The default machine *)

Lemma defaultMachine_new :
  NewEnigma ["I"; "II"; "III"]%string "B" = inr defaultMachine.
Proof. reflexivity. Qed.

Lemma defaultMachine_reachable : reachable defaultMachine.
Proof. exact (reach_new _ _ _ defaultMachine_new). Defined.

Example defaultMachine_golden :
  option_map snd (encryptRunes defaultMachine (runes "AAAAA"))
  = Some (runes "BDZGO").
Proof. reflexivity. Qed.

(** ** The rotation step *)

(** C2. On every machine the API can produce, one rotation step does what
    the specification says: with the middle rotor at notch - 1 the middle and
    left rotors advance by 1 mod 26; otherwise, with the right rotor at
    notch - 1, the middle rotor advances by 1 mod 26; the right rotor
    advances by 1 mod 26 in every case; nothing else changes. Encrypting a
    letter of A-Z takes exactly one such step. *)
Theorem rotateRotors_stepping e :
  reachable e ->
  rotateRotors e = stepping_spec e /\
  (forall c, isLetter c ->
     exists r, encryptChar e c = Some (stepping_spec e, r)).
Proof.
  intros He%reachable_wf.
  assert (Hstep : rotateRotors e = stepping_spec e).
  { apply rotateRotors_spec. intros i. by apply wf_notches. }
  split; [done|]. intros c Hc.
  destruct (encryptChar_letter e c He Hc) as (r & Hr & _).
  exists r. by rewrite <- Hstep.
Qed.

Lemma rotateRotors_stepping_witness :
  rotateRotors defaultMachine = stepping_spec defaultMachine /\
  (forall c, isLetter c ->
     exists r, encryptChar defaultMachine c
               = Some (stepping_spec defaultMachine, r)).
Proof. apply (rotateRotors_stepping defaultMachine defaultMachine_reachable). Defined.

(** The double step on rotors I, II, III from positions (0, 3, 20): the
    right rotor reaches its notch, then the middle one, then middle and left
    move together. *)
Example double_step :
  let e0 := setPositions3 defaultMachine 0 3 20 in
  map positions
    [rotateRotors e0;
     rotateRotors (rotateRotors e0);
     rotateRotors (rotateRotors (rotateRotors e0));
     rotateRotors (rotateRotors (rotateRotors (rotateRotors e0)))]
  = [(0, 3, 21); (0, 4, 22); (1, 5, 23); (1, 5, 24)].
Proof. reflexivity. Qed.

(** ** Ranges *)

Lemma wf_ranges e : wf e -> ranges_ok e.
Proof.
  intros He i. destruct (wf_rotor e i He) as (_ & Hp & Hr & _). done.
Qed.

(** C9. On every machine built by [NewEnigma] and driven through [Reset],
    the two setters, the plugboard call and [encryptChar], and also after
    one more rotation step, every rotor's position and ring setting lie in
    0..25. *)
Theorem ranges_invariant e :
  reachable e -> ranges_ok e /\ ranges_ok (rotateRotors e).
Proof.
  intros He%reachable_wf. split; apply wf_ranges; [done|].
  by apply wf_rotateRotors.
Qed.

Lemma ranges_invariant_witness :
  ranges_ok defaultMachine /\ ranges_ok (rotateRotors defaultMachine).
Proof. apply (ranges_invariant defaultMachine defaultMachine_reachable). Defined.

(** ** Characters that are not letters *)

(** C8. A character outside A-Z comes back unchanged and the machine is
    left exactly as it was, whatever the machine. *)
Theorem encryptChar_passthrough e c :
  ~ isLetter c -> encryptChar e c = Some (e, c).
Proof.
  intros Hc. unfold encryptChar. by rewrite (outside_A_Z_other c Hc).
Qed.

Lemma encryptChar_passthrough_witness :
  encryptChar defaultMachine 49 = Some (defaultMachine, 49).
Proof.
  apply (encryptChar_passthrough defaultMachine 49).
  unfold isLetter, rune_A, rune_Z. lia.
Defined.

(** ** No letter encrypts to itself *)

(** C4. On every reachable machine and every letter c of A-Z, [encryptChar]
    returns, and what it returns is a letter of A-Z other than c. *)
Theorem encryptChar_no_fixed_point e c :
  reachable e -> isLetter c ->
  exists e' r, encryptChar e c = Some (e', r) /\ isLetter r /\ r <> c.
Proof.
  intros He%reachable_wf Hc.
  destruct (encryptChar_letter e c He Hc) as (r & Hr & Hl & Hne & _).
  by exists (rotateRotors e), r.
Qed.

Lemma encryptChar_no_fixed_point_witness :
  exists e' r, encryptChar defaultMachine 65 = Some (e', r) /\
               isLetter r /\ r <> 65.
Proof.
  apply (encryptChar_no_fixed_point defaultMachine 65 defaultMachine_reachable).
  unfold isLetter, rune_A, rune_Z. lia.
Defined.

(** ** Reciprocity *)

Lemma same_settings_rotateRotors e : wf e -> same_settings e (rotateRotors e).
Proof.
  intros He. rewrite rotateRotors_spec by (intros i; by apply wf_notches).
  apply same_settings_stepping.
Qed.

Lemma encryptRunes_letters e cs :
  wf e -> Forall isLetter cs ->
  exists e1 out,
    encryptRunes e cs = Some (e1, out) /\
    Forall isLetter out /\ same_settings e e1 /\
    encryptRunes e out = Some (e1, cs).
Proof.
  intros He Hcs. revert e He.
  induction Hcs as [|c cs Hc Hcs IH]; intros e He.
  - exists e, []. split; [done|]. split; [done|].
    split; [apply same_settings_refl | done].
  - destruct (encryptChar_letter e c He Hc) as (r & Hr & Hl & _ & Hback).
    destruct (IH _ (wf_rotateRotors e He)) as (e1 & out & Hout & Hlo & Hs & Hrev).
    exists e1, (r :: out). cbn [encryptRunes].
    rewrite Hr, Hout, Hback, Hrev.
    split; [done|]. split; [by constructor|]. split; [|done].
    eapply same_settings_trans; [by apply same_settings_rotateRotors | done].
Qed.

Lemma restorePositions_same e e1 :
  ranges_ok e -> same_settings e e1 -> restorePositions e1 e = e.
Proof.
  intros Hr (Hrot & Hrefl & Hpb).
  destruct (Hr Slot0) as [P0 _], (Hr Slot1) as [P1 _], (Hr Slot2) as [P2 _].
  destruct (Hrot Slot0) as [q0 H0], (Hrot Slot1) as [q1 H1],
    (Hrot Slot2) as [q2 H2].
  unfold restorePositions, SetRotorPositions, isIndex in *.
  destruct (_ || _) eqn:Hg.
  - exfalso. unfold outside_1_26 in Hg. lia.
  - rewrite !setter_value, !Z.add_simpl_r by lia.
    destruct e as [[l m r] refl pb], e1 as [[l1 m1 r1] refl1 pb1].
    cbn in *. subst. unfold updRotor. cbn.
    destruct l, m, r. reflexivity.
Qed.

(** C1. On every reachable machine, encrypting a sequence of letters of A-Z
    one [encryptChar] at a time returns a sequence of letters; putting the
    rotors back to the starting positions gives the starting machine again,
    and encrypting the output from there returns the original sequence,
    letter by letter. *)
Theorem reciprocity e cs :
  reachable e -> Forall isLetter cs ->
  exists e1 out,
    encryptRunes e cs = Some (e1, out) /\
    Forall isLetter out /\
    restorePositions e1 e = e /\
    encryptRunes (restorePositions e1 e) out = Some (e1, cs).
Proof.
  intros He%reachable_wf Hcs.
  destruct (encryptRunes_letters e cs He Hcs) as (e1 & out & Hout & Hl & Hs & Hrev).
  exists e1, out.
  rewrite (restorePositions_same e e1 (wf_ranges e He) Hs). done.
Qed.

Lemma reciprocity_witness :
  exists e1 out,
    encryptRunes defaultMachine [72; 69; 76; 76; 79] = Some (e1, out) /\
    Forall isLetter out /\
    restorePositions e1 defaultMachine = defaultMachine /\
    encryptRunes (restorePositions e1 defaultMachine) out
    = Some (e1, [72; 69; 76; 76; 79]).
Proof.
  apply (reciprocity defaultMachine [72; 69; 76; 76; 79]
           defaultMachine_reachable).
  repeat constructor; unfold rune_A, rune_Z; lia.
Defined.

(** ** Range validation of the setters *)

Lemma setter_guard_true a b c :
  ~ all_1_26 a b c ->
  outside_1_26 a || outside_1_26 b || outside_1_26 c = true.
Proof.
  intros H. destruct (_ || _) eqn:Hg; [done|].
  by apply setter_guard in Hg.
Qed.

Lemma SetRotorPositions_ok e a b c :
  all_1_26 a b c ->
  SetRotorPositions e a b c = (setPositions3 e (a - 1) (b - 1) (c - 1), None).
Proof.
  intros H. pose proof H as (Ha & Hb & Hc). apply setter_guard in H.
  unfold SetRotorPositions. rewrite H, !setter_value by done.
  by destruct e as [[l m r] refl pb].
Qed.

Lemma SetRingSettings_ok e a b c :
  all_1_26 a b c ->
  SetRingSettings e a b c = (setRings3 e (a - 1) (b - 1) (c - 1), None).
Proof.
  intros H. pose proof H as (Ha & Hb & Hc). apply setter_guard in H.
  unfold SetRingSettings. rewrite H, !setter_value by done.
  by destruct e as [[l m r] refl pb].
Qed.

Lemma SetRotorPositions_fail e a b c :
  ~ all_1_26 a b c -> SetRotorPositions e a b c = (e, Some PositionOutOfRange).
Proof. intros H. unfold SetRotorPositions. by rewrite setter_guard_true. Qed.

Lemma SetRingSettings_fail e a b c :
  ~ all_1_26 a b c -> SetRingSettings e a b c = (e, Some RingOutOfRange).
Proof. intros H. unfold SetRingSettings. by rewrite setter_guard_true. Qed.

Lemma all_1_26_dec a b c : all_1_26 a b c \/ ~ all_1_26 a b c.
Proof. unfold all_1_26. lia. Qed.

(** C6. Each of the two setters succeeds exactly when its three arguments
    lie in 1..26; it then stores argument - 1 in each rotor and changes
    nothing else; otherwise it fails with its out-of-range error and leaves
    the machine as it was. *)
Theorem setters_validate e a b c :
  ((SetRotorPositions e a b c).2 = None <-> all_1_26 a b c) /\
  (all_1_26 a b c ->
   (SetRotorPositions e a b c).1 = setPositions3 e (a - 1) (b - 1) (c - 1)) /\
  (~ all_1_26 a b c ->
   SetRotorPositions e a b c = (e, Some PositionOutOfRange)) /\
  ((SetRingSettings e a b c).2 = None <-> all_1_26 a b c) /\
  (all_1_26 a b c ->
   (SetRingSettings e a b c).1 = setRings3 e (a - 1) (b - 1) (c - 1)) /\
  (~ all_1_26 a b c ->
   SetRingSettings e a b c = (e, Some RingOutOfRange)).
Proof.
  destruct (all_1_26_dec a b c) as [H|H].
  - rewrite (SetRotorPositions_ok e a b c H), (SetRingSettings_ok e a b c H).
    cbn. tauto.
  - rewrite (SetRotorPositions_fail e a b c H), (SetRingSettings_fail e a b c H).
    cbn. repeat split; (done || tauto).
Qed.

Example setPositions_range_cases :
  (SetRotorPositions defaultMachine 0 1 1).2 = Some PositionOutOfRange /\
  (SetRotorPositions defaultMachine 27 1 1).2 = Some PositionOutOfRange /\
  (SetRotorPositions defaultMachine 1 1 1).2 = None /\
  positions (SetRotorPositions defaultMachine 26 2 13).1 = (25, 1, 12).
Proof. repeat split. Qed.

(** ** Plugboard connections *)

Lemma toUpper_letter c : isLetter c -> toUpper c = c.
Proof.
  unfold isLetter, toUpper, rune_A, rune_Z. intros Hc.
  replace ((97 <=? c) && (c <=? 122)) with false by lia.
  replace (c =? 305) with false by lia.
  by replace (c =? 383) with false by lia.
Qed.

Lemma AddPlugboardConnection_fresh e a b :
  isLetter a -> isLetter b ->
  plugboard e !! a = None -> plugboard e !! b = None ->
  AddPlugboardConnection e a b
  = (withPlugboard e (<[b := a]> (<[a := b]> (plugboard e))), None).
Proof.
  intros Ha Hb Na Nb. unfold AddPlugboardConnection. cbv zeta.
  rewrite (toUpper_letter a Ha), (toUpper_letter b Hb).
  rewrite (proj2 (plug_guard a b) (conj Ha Hb)), Na, Nb. reflexivity.
Qed.

Lemma AddPlugboardConnection_taken e x y :
  isLetter x -> isLetter y ->
  is_Some (plugboard e !! x) \/ is_Some (plugboard e !! y) ->
  exists l, (l = x \/ l = y) /\
            AddPlugboardConnection e x y = (e, Some (AlreadyConnected l)).
Proof.
  intros Hx Hy Htaken. unfold AddPlugboardConnection. cbv zeta.
  rewrite (toUpper_letter x Hx), (toUpper_letter y Hy).
  rewrite (proj2 (plug_guard x y) (conj Hx Hy)).
  destruct (plugboard e !! x) as [v|] eqn:Ex; [by eauto|].
  destruct (plugboard e !! y) as [v|] eqn:Ey; [by eauto|].
  destruct Htaken as [[? ?]|[? ?]]; done.
Qed.

Lemma AddPlugboardConnection_failure e a b err :
  (AddPlugboardConnection e a b).2 = Some err ->
  (AddPlugboardConnection e a b).1 = e.
Proof.
  unfold AddPlugboardConnection. cbv zeta.
  destruct (_ || _); [done|].
  destruct (plugboard e !! toUpper a); [done|].
  destruct (plugboard e !! toUpper b); done.
Qed.

Lemma plugboard_updRotor e i f : plugboard (updRotor e i f) = plugboard e.
Proof. reflexivity. Qed.

Lemma plugboard_rotateRotors e : plugboard (rotateRotors e) = plugboard e.
Proof.
  unfold rotateRotors. cbv zeta. rewrite plugboard_updRotor.
  destruct (atNotch (rotorAt e Slot1)); [done|].
  by destruct (atNotch (rotorAt e Slot2)).
Qed.

Lemma plugboard_encryptChar e c e' r :
  encryptChar e c = Some (e', r) -> plugboard e' = plugboard e.
Proof.
  unfold encryptChar. cbv zeta. destruct (outside_A_Z c).
  - by intros [= <- _].
  - destruct (substitute _ _); [|done].
    intros [= <- _]. apply plugboard_rotateRotors.
Qed.

(** No call of the API removes or changes a connection. *)
Lemma api_step_keeps e e' k v :
  api_step e e' -> plugboard e !! k = Some v -> plugboard e' !! k = Some v.
Proof.
  intros Hstep Hk. destruct Hstep as [e|e p1 p2 p3|e r1 r2 r3|e a b|e c e' r Henc].
  - done.
  - unfold SetRotorPositions. by destruct (_ || _).
  - unfold SetRingSettings. by destruct (_ || _).
  - unfold AddPlugboardConnection. cbv zeta.
    destruct (_ || _); [done|].
    destruct (plugboard e !! toUpper a) eqn:Na; [done|].
    destruct (plugboard e !! toUpper b) eqn:Nb; [done|].
    cbn. rewrite !lookup_insert_ne; [done | congruence | congruence].
  - by rewrite (plugboard_encryptChar _ _ _ _ Henc).
Qed.

Lemma api_steps_keep e e' k v :
  rtc api_step e e' -> plugboard e !! k = Some v -> plugboard e' !! k = Some v.
Proof. induction 1; eauto using api_step_keeps. Qed.

(** C5. A call on two letters without partners succeeds and installs the
    pair in both directions; from then on, after any further calls of the
    API, a call on two letters one of which is a or b fails with
    [AlreadyConnected]; and a failing call returns the machine it was given. *)
Theorem plug_connection e a b :
  isLetter a -> isLetter b ->
  plugboard e !! a = None -> plugboard e !! b = None ->
  let e' := (AddPlugboardConnection e a b).1 in
  (AddPlugboardConnection e a b).2 = None /\
  plugboard e' !! a = Some b /\ plugboard e' !! b = Some a /\
  (forall e2 x y,
     rtc api_step e' e2 -> isLetter x -> isLetter y ->
     x = a \/ x = b \/ y = a \/ y = b ->
     exists l, (l = x \/ l = y) /\
       AddPlugboardConnection e2 x y = (e2, Some (AlreadyConnected l))) /\
  (forall e2 x y err,
     (AddPlugboardConnection e2 x y).2 = Some err ->
     (AddPlugboardConnection e2 x y).1 = e2).
Proof.
  intros Ha Hb Na Nb. rewrite (AddPlugboardConnection_fresh e a b Ha Hb Na Nb).
  cbn. split; [done|].
  assert (Hab : <[b:=a]> (<[a:=b]> (plugboard e)) !! a = Some b).
  { destruct (decide (b = a)) as [->|Hne].
    - by rewrite lookup_insert_eq.
    - by rewrite lookup_insert_ne, lookup_insert_eq. }
  assert (Hba : <[b:=a]> (<[a:=b]> (plugboard e)) !! b = Some a)
    by by rewrite lookup_insert_eq.
  split; [done|]. split; [done|]. split.
  - intros e2 x y Hsteps Hx Hy Hxy.
    apply AddPlugboardConnection_taken; [done | done |].
    pose proof (api_steps_keep _ _ a b Hsteps Hab) as Ka.
    pose proof (api_steps_keep _ _ b a Hsteps Hba) as Kb.
    destruct Hxy as [-> | [-> | [-> | ->]]]; eauto.
  - apply AddPlugboardConnection_failure.
Qed.

Lemma plug_connection_witness :
  let e' := (AddPlugboardConnection defaultMachine 65 66).1 in
  (AddPlugboardConnection defaultMachine 65 66).2 = None /\
  plugboard e' !! 65 = Some 66 /\ plugboard e' !! 66 = Some 65 /\
  (forall e2 x y,
     rtc api_step e' e2 -> isLetter x -> isLetter y ->
     x = 65 \/ x = 66 \/ y = 65 \/ y = 66 ->
     exists l, (l = x \/ l = y) /\
       AddPlugboardConnection e2 x y = (e2, Some (AlreadyConnected l))) /\
  (forall e2 x y err,
     (AddPlugboardConnection e2 x y).2 = Some err ->
     (AddPlugboardConnection e2 x y).1 = e2).
Proof.
  apply (plug_connection defaultMachine 65 66);
    first [ reflexivity | unfold isLetter, rune_A, rune_Z; lia ].
Defined.

Example plug_A_B_then_A_C :
  let e' := (AddPlugboardConnection defaultMachine 65 66).1 in
  AddPlugboardConnection e' 65 67 = (e', Some (AlreadyConnected 65)) /\
  AddPlugboardConnection e' 67 66 = (e', Some (AlreadyConnected 66)).
Proof. split; reflexivity. Qed.

(** C3, as the program has it. For a letter a of A-Z,
    [AddPlugboardConnection a a] fails with [AlreadyConnected a] when a
    already has a partner; when a has none the call succeeds and records a
    as its own partner. *)
Theorem self_pair e a :
  isLetter a ->
  (is_Some (plugboard e !! a) ->
   AddPlugboardConnection e a a = (e, Some (AlreadyConnected a))) /\
  (plugboard e !! a = None ->
   (AddPlugboardConnection e a a).2 = None /\
   plugboard (AddPlugboardConnection e a a).1 !! a = Some a).
Proof.
  intros Ha. split.
  - intros Htaken.
    destruct (AddPlugboardConnection_taken e a a Ha Ha (or_introl Htaken))
      as (l & [-> | ->] & Hl); done.
  - intros Na. rewrite (AddPlugboardConnection_fresh e a a Ha Ha Na Na).
    cbn. split; [done|]. by rewrite lookup_insert_eq.
Qed.

Lemma self_pair_witness :
  (is_Some (plugboard defaultMachine !! 65) ->
   AddPlugboardConnection defaultMachine 65 65
   = (defaultMachine, Some (AlreadyConnected 65))) /\
  (plugboard defaultMachine !! 65 = None ->
   (AddPlugboardConnection defaultMachine 65 65).2 = None /\
   plugboard (AddPlugboardConnection defaultMachine 65 65).1 !! 65 = Some 65).
Proof.
  apply (self_pair defaultMachine 65). unfold isLetter, rune_A, rune_Z. lia.
Defined.

(** The claim as written fails on the fresh default machine: the call on
    (A, A) returns no error, and the machine it leaves, which the API has
    produced, maps A to A. *)
Lemma self_pair_accepted :
  reachable defaultMachine /\ isLetter 65 /\
  plugboard defaultMachine !! 65 = None /\
  (AddPlugboardConnection defaultMachine 65 65).2
    <> Some (AlreadyConnected 65) /\
  reachable (AddPlugboardConnection defaultMachine 65 65).1 /\
  plugboard (AddPlugboardConnection defaultMachine 65 65).1 !! 65 = Some 65.
Proof.
  split; [apply defaultMachine_reachable|].
  split; [unfold isLetter, rune_A, rune_Z; lia|].
  split; [reflexivity|]. split; [discriminate|].
  split; [apply reach_plug, defaultMachine_reachable | reflexivity].
Qed.

(** * Further properties of the program *)

(** ** Construction *)

Lemma rotorWirings_known n :
  is_Some (rotorWirings !! n) <-> n ∈ rotorNamesKnown.
Proof.
  change rotorNamesKnown with (rotorWiringsTable.*1).
  rewrite <- not_eq_None_Some. unfold rotorWirings.
  rewrite <- not_elem_of_list_to_map.
  destruct (decide (n ∈ rotorWiringsTable.*1)); tauto.
Qed.

Lemma reflectors_known n :
  is_Some (reflectors !! n) <-> n ∈ reflectorNamesKnown.
Proof.
  change reflectorNamesKnown with (reflectorsTable.*1).
  rewrite <- not_eq_None_Some. unfold reflectors.
  rewrite <- not_elem_of_list_to_map.
  destruct (decide (n ∈ reflectorsTable.*1)); tauto.
Qed.

Lemma newRotor_is_inr n : (exists r, newRotor n = inr r) <-> n ∈ rotorNamesKnown.
Proof.
  rewrite <- rotorWirings_known. unfold newRotor.
  destruct (rotorWirings !! n) as [w|]; split.
  - by eauto.
  - by eauto.
  - by intros [r [=]].
  - by intros [w [=]].
Qed.

(** X1. [NewEnigma] succeeds exactly when it is given three rotor names,
    each one of I to V, and a reflector name among A, B, C; the same rotor
    may be named more than once. *)
Theorem NewEnigma_succeeds_iff names refl :
  (exists e, NewEnigma names refl = inr e) <->
  length names = 3%nat /\
  Forall (fun n => n ∈ rotorNamesKnown) names /\
  refl ∈ reflectorNamesKnown.
Proof.
  rewrite <- reflectors_known. unfold NewEnigma.
  destruct names as [|n0 [|n1 [|n2 [|n3 rest]]]];
    try (split; [by intros [e [=]] | by intros [[=] _]]).
  rewrite !Forall_cons, Forall_nil, <- !newRotor_is_inr.
  destruct (reflectors !! refl) as [w|].
  2: { split; [by intros [e [=]] | by intros (_ & _ & [? [=]])]. }
  destruct (newRotor n0) as [err|r0].
  { split; [by intros [e [=]] | by intros (_ & ([? [=]] & _) & _)]. }
  destruct (newRotor n1) as [err|r1].
  { split; [by intros [e [=]] | by intros (_ & (_ & [? [=]] & _) & _)]. }
  destruct (newRotor n2) as [err|r2].
  { split; [by intros [e [=]] | by intros (_ & (_ & _ & [? [=]] & _) & _)]. }
  split; [|by eauto]. intros _. split; [done|]. split; [|by eauto].
  repeat split; eauto.
Qed.

Lemma newRotor_unknown n : n ∉ rotorNamesKnown -> newRotor n = inl (UnknownRotor n).
Proof.
  intros Hn. unfold newRotor.
  destruct (rotorWirings !! n) as [w|] eqn:Hw; [|done].
  exfalso. apply Hn, rotorWirings_known. by eauto.
Qed.

Lemma newRotor_known n :
  n ∈ rotorNamesKnown -> exists r, newRotor n = inr r.
Proof. apply newRotor_is_inr. Qed.

(** X2. The errors of [NewEnigma] in the order it checks: a number of names
    other than three is reported first, whatever the names; then an unknown
    reflector, whatever the rotors; then the first unknown rotor from the
    left. *)
Theorem NewEnigma_errors names refl :
  (length names <> 3%nat -> NewEnigma names refl = inl WrongRotorCount) /\
  (length names = 3%nat -> refl ∉ reflectorNamesKnown ->
   NewEnigma names refl = inl (UnknownReflector refl)) /\
  (length names = 3%nat -> refl ∈ reflectorNamesKnown ->
   forall good n rest,
     names = good ++ n :: rest ->
     Forall (fun m => m ∈ rotorNamesKnown) good -> n ∉ rotorNamesKnown ->
     NewEnigma names refl = inl (UnknownRotor n)).
Proof.
  unfold NewEnigma.
  destruct names as [|n0 [|n1 [|n2 [|n3 more]]]]; cbn [length];
    try (split; [done | split; intros; lia]).
  split; [done|]. split.
  - intros _ Hrefl. destruct (reflectors !! refl) as [w|] eqn:Hw; [|done].
    exfalso. apply Hrefl, reflectors_known. by eauto.
  - intros _ Hrefl%reflectors_known good n rest Hnames Hgood Hn.
    destruct Hrefl as [w ->].
    destruct good as [|g0 [|g1 [|g2 good]]]; simplify_eq/=.
    + by rewrite newRotor_unknown.
    + apply Forall_cons in Hgood as [H0 _].
      destruct (newRotor_known _ H0) as [r0 ->].
      by rewrite newRotor_unknown.
    + apply Forall_cons in Hgood as [H0 [H1 _]%Forall_cons].
      destruct (newRotor_known _ H0) as [r0 ->].
      destruct (newRotor_known _ H1) as [r1 ->].
      by rewrite newRotor_unknown.
    + by destruct good.
Qed.

Lemma newRotor_fields n r :
  newRotor n = inr r ->
  name r = n /\ position r = 0 /\ ringSetting r = 0 /\
  rotorWirings !! n = Some (wiring r) /\ rotorNotches !! n = Some (notch r).
Proof.
  unfold newRotor. destruct (rotorWirings !! n) as [w|] eqn:Hw; [|done].
  intros [= <-]. cbn. repeat split; try done.
  apply rotorWirings_inv in Hw. simpl in Hw.
  repeat (destruct Hw as [[= <- <-] | Hw]; [reflexivity |]). destruct Hw.
Qed.

(** X3. The machine [NewEnigma] returns has the named rotors in the order
    given, each with the wiring and notch the tables list under its name,
    the named reflector, every position and ring setting at 0 and an empty
    plugboard. *)
Theorem NewEnigma_fresh names refl e :
  NewEnigma names refl = inr e ->
  names = [name (rotorAt e Slot0); name (rotorAt e Slot1); name (rotorAt e Slot2)] /\
  (forall i, rotorWirings !! name (rotorAt e i) = Some (wiring (rotorAt e i)) /\
             rotorNotches !! name (rotorAt e i) = Some (notch (rotorAt e i))) /\
  reflectors !! refl = Some (reflector e) /\
  positions e = (0, 0, 0) /\ ringSettings e = (0, 0, 0) /\
  plugboard e = ∅.
Proof.
  unfold NewEnigma.
  destruct names as [|n0 [|n1 [|n2 [|? ?]]]]; try done.
  destruct (reflectors !! refl) as [w|] eqn:Hw; [|done].
  destruct (newRotor n0) as [|r0] eqn:H0; [done|].
  destruct (newRotor n1) as [|r1] eqn:H1; [done|].
  destruct (newRotor n2) as [|r2] eqn:H2; [done|].
  intros [= <-].
  destruct (newRotor_fields _ _ H0) as (N0 & P0 & R0 & W0 & T0).
  destruct (newRotor_fields _ _ H1) as (N1 & P1 & R1 & W1 & T1).
  destruct (newRotor_fields _ _ H2) as (N2 & P2 & R2 & W2 & T2).
  subst n0 n1 n2. unfold positions, ringSettings.
  cbn [rotorAt rotors rotor0 rotor1 rotor2 reflector plugboard].
  split; [done|]. split.
  - intros [| |]; done.
  - rewrite P0, P1, P2, R0, R1, R2. done.
Qed.

Lemma NewEnigma_fresh_witness :
  ["I"; "II"; "III"]%string
  = [name (rotorAt defaultMachine Slot0); name (rotorAt defaultMachine Slot1);
     name (rotorAt defaultMachine Slot2)] /\
  (forall i,
     rotorWirings !! name (rotorAt defaultMachine i)
     = Some (wiring (rotorAt defaultMachine i)) /\
     rotorNotches !! name (rotorAt defaultMachine i)
     = Some (notch (rotorAt defaultMachine i))) /\
  reflectors !! "B"%string = Some (reflector defaultMachine) /\
  positions defaultMachine = (0, 0, 0) /\
  ringSettings defaultMachine = (0, 0, 0) /\
  plugboard defaultMachine = ∅.
Proof.
  apply (NewEnigma_fresh ["I"; "II"; "III"]%string "B" defaultMachine).
  reflexivity.
Defined.

(** ** Reset and the two setters together *)

(** X4. [Reset] puts the three positions at 0 and leaves ring settings,
    wirings, notches, reflector and plugboard as they were; it does what
    [SetRotorPositions] does on (1, 1, 1), and doing it twice changes
    nothing more. *)
Theorem Reset_is_first_position e :
  Reset e = setPositions3 e 0 0 0 /\
  Reset e = (SetRotorPositions e 1 1 1).1 /\
  Reset (Reset e) = Reset e.
Proof. by destruct e as [[l m r] refl pb]. Qed.

Lemma setPositions3_twice e a b c a' b' c' :
  setPositions3 (setPositions3 e a b c) a' b' c' = setPositions3 e a' b' c'.
Proof. by destruct e as [[l m r] refl pb]. Qed.

Lemma setPositions3_setRings3 e a b c x y z :
  setRings3 (setPositions3 e a b c) x y z
  = setPositions3 (setRings3 e x y z) a b c.
Proof. by destruct e as [[l m r] refl pb]. Qed.

(** X5. The two setters commute: rotor positions and ring settings may be
    configured in either order, with valid or invalid arguments, and the
    machine obtained is the same. *)
Theorem setters_commute e a b c x y z :
  (SetRingSettings (SetRotorPositions e a b c).1 x y z).1
  = (SetRotorPositions (SetRingSettings e x y z).1 a b c).1.
Proof.
  destruct (all_1_26_dec a b c) as [Hp|Hp], (all_1_26_dec x y z) as [Hr|Hr].
  - rewrite (SetRotorPositions_ok e), (SetRingSettings_ok e) by done. cbn [fst].
    rewrite SetRotorPositions_ok, SetRingSettings_ok by done. cbn [fst].
    apply setPositions3_setRings3.
  - rewrite (SetRingSettings_fail e) by done. cbn [fst].
    by rewrite SetRingSettings_fail.
  - rewrite (SetRotorPositions_fail e) by done. cbn [fst].
    by rewrite SetRotorPositions_fail.
  - rewrite (SetRotorPositions_fail e), (SetRingSettings_fail e) by done.
    cbn [fst]. by rewrite SetRotorPositions_fail, SetRingSettings_fail.
Qed.

(** X6. A call of [SetRotorPositions] with valid arguments overrides
    whatever positions the machine had: an earlier call of the setter, valid
    or not, or of [Reset], leaves no trace. *)
Theorem SetRotorPositions_overrides e a b c a' b' c' :
  all_1_26 a' b' c' ->
  SetRotorPositions (SetRotorPositions e a b c).1 a' b' c'
  = SetRotorPositions e a' b' c' /\
  SetRotorPositions (Reset e) a' b' c' = SetRotorPositions e a' b' c'.
Proof.
  intros H'. rewrite (SetRotorPositions_ok e a' b' c' H').
  rewrite (SetRotorPositions_ok (Reset e) a' b' c' H').
  rewrite (SetRotorPositions_ok _ a' b' c' H'). split; [|reflexivity].
  f_equal. destruct (all_1_26_dec a b c) as [H|H].
  - rewrite (SetRotorPositions_ok e a b c) by done. cbn [fst].
    apply setPositions3_twice.
  - by rewrite (SetRotorPositions_fail e a b c).
Qed.

Lemma SetRotorPositions_overrides_witness :
  SetRotorPositions (SetRotorPositions defaultMachine 5 0 7).1 3 2 1
  = SetRotorPositions defaultMachine 3 2 1 /\
  SetRotorPositions (Reset defaultMachine) 3 2 1
  = SetRotorPositions defaultMachine 3 2 1.
Proof.
  apply (SetRotorPositions_overrides defaultMachine 5 0 7 3 2 1).
  unfold all_1_26. lia.
Defined.

(** ** More on plugboard connections *)

Lemma toUpper_ascii_letter c :
  isAscii c -> (isLetter (toUpper c) <-> isAsciiLetter c).
Proof.
  unfold isAscii, isAsciiLetter, isLetter, toUpper, rune_A, rune_Z. intros Hc.
  replace (c =? 305) with false by lia. replace (c =? 383) with false by lia.
  destruct (decide (97 <= c <= 122)) as [Hl|Hl].
  - replace ((97 <=? c) && (c <=? 122)) with true by lia. cbv iota. lia.
  - replace ((97 <=? c) && (c <=? 122)) with false by lia. cbv iota. lia.
Qed.

Lemma toUpper_idempotent c : toUpper (toUpper c) = toUpper c.
Proof.
  unfold toUpper.
  destruct ((97 <=? c) && (c <=? 122)) eqn:E.
  - replace ((97 <=? c - 32) && (c - 32 <=? 122)) with false by lia.
    replace (c - 32 =? 305) with false by lia.
    by replace (c - 32 =? 383) with false by lia.
  - destruct (c =? 305) eqn:E1; [reflexivity|].
    destruct (c =? 383) eqn:E2; [reflexivity|].
    by rewrite E, E1, E2.
Qed.

(** X7. On ASCII characters the call fails with [InvalidLetter] exactly
    when one of the two is not a letter of either case, and it decides so
    before it looks at the plugboard: the machine is returned as it was,
    even if the other letter is already connected. *)
Theorem AddPlugboardConnection_invalid e a b :
  isAscii a -> isAscii b ->
  ((AddPlugboardConnection e a b).2 = Some InvalidLetter <->
   ~ (isAsciiLetter a /\ isAsciiLetter b)) /\
  (~ (isAsciiLetter a /\ isAsciiLetter b) ->
   AddPlugboardConnection e a b = (e, Some InvalidLetter)).
Proof.
  intros Ha%toUpper_ascii_letter Hb%toUpper_ascii_letter.
  rewrite <- Ha, <- Hb, <- plug_guard.
  unfold AddPlugboardConnection. cbv zeta.
  destruct (_ || _).
  - split; [by split|done].
  - split; [|done].
    destruct (plugboard e !! toUpper a); [by split|].
    destruct (plugboard e !! toUpper b); by split.
Qed.

Lemma AddPlugboardConnection_invalid_witness :
  ((AddPlugboardConnection defaultMachine 65 49).2 = Some InvalidLetter <->
   ~ (isAsciiLetter 65 /\ isAsciiLetter 49)) /\
  (~ (isAsciiLetter 65 /\ isAsciiLetter 49) ->
   AddPlugboardConnection defaultMachine 65 49
   = (defaultMachine, Some InvalidLetter)).
Proof.
  apply (AddPlugboardConnection_invalid defaultMachine 65 49);
    unfold isAscii; lia.
Defined.

(** X8. The call is case-insensitive on ASCII: it does on a and b what it
    does on their upper-case forms, to the machine and to the error. *)
Theorem AddPlugboardConnection_case e a b :
  isAscii a -> isAscii b ->
  AddPlugboardConnection e a b
  = AddPlugboardConnection e (toUpper a) (toUpper b).
Proof.
  intros _ _. unfold AddPlugboardConnection. cbv zeta.
  by rewrite !toUpper_idempotent.
Qed.

Lemma AddPlugboardConnection_case_witness :
  AddPlugboardConnection defaultMachine 97 98
  = AddPlugboardConnection defaultMachine (toUpper 97) (toUpper 98).
Proof.
  apply (AddPlugboardConnection_case defaultMachine 97 98); unfold isAscii; lia.
Defined.

Lemma insert_pair_swap (pb : gmap Z Z) a b :
  <[b := a]> (<[a := b]> pb) = <[a := b]> (<[b := a]> pb).
Proof.
  destruct (decide (a = b)) as [->|Hne]; [done|].
  by apply insert_insert_ne.
Qed.

(** X9. The two arguments play the same part: the call on (b, a) succeeds
    exactly when the call on (a, b) does, and leaves the same machine. *)
Theorem AddPlugboardConnection_symmetric e a b :
  (AddPlugboardConnection e a b).1 = (AddPlugboardConnection e b a).1 /\
  ((AddPlugboardConnection e a b).2 = None <->
   (AddPlugboardConnection e b a).2 = None).
Proof.
  unfold AddPlugboardConnection. cbv zeta.
  rewrite (orb_comm (outside_A_Z (toUpper b))).
  destruct (_ || _); [done|].
  destruct (plugboard e !! toUpper a), (plugboard e !! toUpper b); try done.
  cbn. unfold withPlugboard. cbn. by rewrite insert_pair_swap.
Qed.

(** X10. On every reachable machine the plugboard is a symmetric pairing of
    letters: a key is a letter of A-Z, so is its partner, and the partner's
    partner is the key; so the plugboard lookup of [encryptChar] is
    self-inverse on every character. *)
Theorem plugboard_symmetric e :
  reachable e ->
  (forall k v, plugboard e !! k = Some v ->
     isLetter k /\ isLetter v /\ plugboard e !! v = Some k) /\
  (forall c, plug (plugboard e) (plug (plugboard e) c) = c).
Proof.
  intros (_ & _ & Hpb)%reachable_wf. split.
  - intros k v Hk. destruct (Hpb k v Hk) as [Hlk Hv].
    destruct (Hpb v k Hv) as [Hlv _]. done.
  - intros c. unfold plug at 2.
    destruct (plugboard e !! c) as [v|] eqn:Hc.
    + destruct (Hpb c v Hc) as [_ Hv]. unfold plug. by rewrite Hv.
    + unfold plug. by rewrite Hc.
Qed.

Lemma plugboard_symmetric_witness :
  let e := (AddPlugboardConnection defaultMachine 65 66).1 in
  (forall k v, plugboard e !! k = Some v ->
     isLetter k /\ isLetter v /\ plugboard e !! v = Some k) /\
  (forall c, plug (plugboard e) (plug (plugboard e) c) = c).
Proof.
  apply (plugboard_symmetric (AddPlugboardConnection defaultMachine 65 66).1).
  apply reach_plug, defaultMachine_reachable.
Defined.

Lemma plugboard_ok_size (pb : gmap Z Z) :
  plugboard_ok pb -> (size pb <= 26)%nat.
Proof.
  intros Hpb. rewrite <- size_dom.
  assert (Hsub : dom pb ⊆ (list_to_set (seqZ rune_A 26) : gset Z)).
  { intros k [v Hk]%elem_of_dom. destruct (Hpb k v Hk) as [Hl _].
    apply elem_of_list_to_set, elem_of_seqZ.
    unfold isLetter, rune_A, rune_Z in *. lia. }
  apply subseteq_size in Hsub.
  rewrite size_list_to_set in Hsub by apply NoDup_seqZ.
  by rewrite length_seqZ in Hsub.
Qed.

(** X11. A reachable machine never holds more than 26 plugboard entries. *)
Theorem plugboard_size e :
  reachable e -> (size (plugboard e) <= 26)%nat.
Proof. intros (_ & _ & Hpb)%reachable_wf. by apply plugboard_ok_size. Qed.

Lemma plugboard_size_witness : (size (plugboard defaultMachine) <= 26)%nat.
Proof. apply (plugboard_size defaultMachine defaultMachine_reachable). Defined.

(** X12. Connections on disjoint letters are independent: with a, b, c, d
    letters of A-Z and neither of a, b equal to c or d, the pair (a, b) and
    the pair (c, d) may be installed in either order, the outcome of each
    call and the final machine are the same. *)
Theorem AddPlugboardConnection_independent e a b c d :
  isLetter a -> isLetter b -> isLetter c -> isLetter d ->
  a <> c -> a <> d -> b <> c -> b <> d ->
  let e1 := (AddPlugboardConnection e a b).1 in
  let e2 := (AddPlugboardConnection e c d).1 in
  (AddPlugboardConnection e1 c d).1 = (AddPlugboardConnection e2 a b).1 /\
  (AddPlugboardConnection e2 a b).2 = (AddPlugboardConnection e a b).2 /\
  (AddPlugboardConnection e1 c d).2 = (AddPlugboardConnection e c d).2.
Proof.
  intros Ha Hb Hc Hd Hac Had Hbc Hbd.
  unfold AddPlugboardConnection. cbv zeta.
  rewrite !toUpper_letter by done.
  rewrite (proj2 (plug_guard a b) (conj Ha Hb)).
  rewrite (proj2 (plug_guard c d) (conj Hc Hd)).
  destruct (plugboard e !! a) eqn:Ea, (plugboard e !! b) eqn:Eb,
    (plugboard e !! c) eqn:Ec, (plugboard e !! d) eqn:Ed;
    cbn; rewrite ?lookup_insert_ne by done; rewrite ?Ea, ?Eb, ?Ec, ?Ed;
    cbn; try done.
  split; [|done]. unfold withPlugboard. cbn. f_equal.
  apply map_eq. intros k. rewrite !lookup_insert.
  repeat case_decide; congruence.
Qed.

Lemma AddPlugboardConnection_independent_witness :
  let e1 := (AddPlugboardConnection defaultMachine 65 66).1 in
  let e2 := (AddPlugboardConnection defaultMachine 67 68).1 in
  (AddPlugboardConnection e1 67 68).1 = (AddPlugboardConnection e2 65 66).1 /\
  (AddPlugboardConnection e2 65 66).2
  = (AddPlugboardConnection defaultMachine 65 66).2 /\
  (AddPlugboardConnection e1 67 68).2
  = (AddPlugboardConnection defaultMachine 67 68).2.
Proof.
  apply (AddPlugboardConnection_independent defaultMachine 65 66 67 68);
    unfold isLetter, rune_A, rune_Z; lia.
Defined.

(** ** More on stepping *)

Lemma wf_iter_rotateRotors e n : wf e -> wf (Nat.iter n rotateRotors e).
Proof.
  intros He. induction n as [|n IH]; [done|].
  change (Nat.iter (S n) rotateRotors e)
    with (rotateRotors (Nat.iter n rotateRotors e)).
  by apply wf_rotateRotors.
Qed.

Lemma rotateRotors_right e :
  wf e ->
  position (rotorAt (rotateRotors e) Slot2) = next (position (rotorAt e Slot2)).
Proof.
  intros He. rewrite rotateRotors_spec by (intros i; by apply wf_notches).
  reflexivity.
Qed.

(** X13. The right rotor counts the steps: after n rotation steps from a
    reachable machine its position is the starting one plus n, mod 26, so it
    is back where it started after every 26 steps. *)
Theorem right_rotor_counts e n :
  reachable e ->
  position (rotorAt (Nat.iter n rotateRotors e) Slot2)
  = (position (rotorAt e Slot2) + Z.of_nat n) mod 26.
Proof.
  intros He%reachable_wf. induction n as [|n IH].
  - destruct (wf_notches e Slot2 He) as [Hp _]. unfold isIndex in Hp.
    change (Nat.iter 0 rotateRotors e) with e.
    rewrite Nat2Z.inj_0, Z.add_0_r.
    symmetry. apply Z.mod_small. lia.
  - change (Nat.iter (S n) rotateRotors e)
      with (rotateRotors (Nat.iter n rotateRotors e)).
    rewrite rotateRotors_right by by apply wf_iter_rotateRotors.
    rewrite IH. unfold next. rewrite Zplus_mod_idemp_l. f_equal. lia.
Qed.

Lemma right_rotor_counts_witness :
  position (rotorAt (Nat.iter 30 rotateRotors defaultMachine) Slot2)
  = (position (rotorAt defaultMachine Slot2) + Z.of_nat 30) mod 26.
Proof. apply (right_rotor_counts defaultMachine 30 defaultMachine_reachable). Defined.

Lemma next_neq p : isIndex p -> next p <> p.
Proof. unfold isIndex, next. intros Hp. Z.to_euclidean_division_equations. lia. Qed.

(** X14. The double step: on a reachable machine whose right rotor is at
    its notch while the middle rotor is one position before its own, two
    rotation steps advance the middle rotor twice and the left rotor once. *)
Theorem double_stepping e :
  reachable e ->
  position (rotorAt e Slot2) = notch (rotorAt e Slot2) - 1 ->
  next (position (rotorAt e Slot1)) = notch (rotorAt e Slot1) - 1 ->
  positions (rotateRotors e)
  = (position (rotorAt e Slot0),
     next (position (rotorAt e Slot1)),
     next (position (rotorAt e Slot2))) /\
  positions (rotateRotors (rotateRotors e))
  = (next (position (rotorAt e Slot0)),
     next (next (position (rotorAt e Slot1))),
     next (next (position (rotorAt e Slot2)))).
Proof.
  intros He%reachable_wf Hr Hm.
  pose proof (wf_rotateRotors e He) as He1.
  rewrite (rotateRotors_spec (rotateRotors e))
    by (intros i; by apply wf_notches).
  rewrite (rotateRotors_spec e) by (intros i; by apply wf_notches).
  destruct (wf_notches e Slot1 He) as [Pm _].
  pose proof (next_neq _ Pm) as Hne.
  destruct e as [[l m r] refl pb]. unfold positions, stepping_spec.
  cbn -[next] in *.
  replace (position m =? notch m - 1) with false by lia.
  replace (position r =? notch r - 1) with true by lia.
  cbn -[next]. split; [done|].
  replace (next (position m) =? notch m - 1) with true by lia.
  done.
Qed.

Lemma double_stepping_witness :
  let e := setPositions3 defaultMachine 0 3 21 in
  positions (rotateRotors e)
  = (position (rotorAt e Slot0),
     next (position (rotorAt e Slot1)),
     next (position (rotorAt e Slot2))) /\
  positions (rotateRotors (rotateRotors e))
  = (next (position (rotorAt e Slot0)),
     next (next (position (rotorAt e Slot1))),
     next (next (position (rotorAt e Slot2)))).
Proof.
  apply (double_stepping (setPositions3 defaultMachine 0 3 21)).
  - exact (reach_positions defaultMachine 1 4 22 defaultMachine_reachable).
  - reflexivity.
  - reflexivity.
Defined.

(** ** Whole texts *)

Lemma isLetterb_true c : isLetter c -> isLetterb c = true.
Proof. intros Hc. unfold isLetterb. by rewrite outside_A_Z_letter. Qed.

Lemma isLetterb_false c : ~ isLetter c -> isLetterb c = false.
Proof. intros Hc. unfold isLetterb. by rewrite outside_A_Z_other. Qed.

Lemma countLetters_letter c cs :
  isLetter c -> countLetters (c :: cs) = S (countLetters cs).
Proof. intros Hc. unfold countLetters. cbn. by rewrite isLetterb_true. Qed.

Lemma countLetters_other c cs :
  ~ isLetter c -> countLetters (c :: cs) = countLetters cs.
Proof. intros Hc. unfold countLetters. cbn. by rewrite isLetterb_false. Qed.

Lemma iter_rotateRotors_S n e :
  Nat.iter (S n) rotateRotors e = Nat.iter n rotateRotors (rotateRotors e).
Proof. symmetry. apply Nat.iter_swap. Qed.

Lemma encryptChar_other e c : ~ isLetter c -> encryptChar e c = Some (e, c).
Proof. intros Hc. unfold encryptChar. by rewrite outside_A_Z_other. Qed.

Lemma encryptRunes_text e cs :
  wf e ->
  exists out,
    encryptRunes e cs
    = Some (Nat.iter (countLetters cs) rotateRotors e, out) /\
    Forall2 letterwise cs out /\
    encryptRunes e out
    = Some (Nat.iter (countLetters cs) rotateRotors e, cs).
Proof.
  revert e. induction cs as [|c cs IH]; intros e He.
  - exists []. split; [done|]. split; [constructor | done].
  - destruct (decide (isLetter c)) as [Hc|Hc].
    + destruct (encryptChar_letter e c He Hc) as (r & Hr & Hl & Hne & Hback).
      destruct (IH _ (wf_rotateRotors e He)) as (out & Hout & Hrel & Hrev).
      exists (r :: out). rewrite countLetters_letter, iter_rotateRotors_S by done.
      cbn [encryptRunes]. rewrite Hr, Hout, Hback, Hrev.
      split; [done|]. split; [|done].
      constructor; [|done]. left. done.
    + destruct (IH _ He) as (out & Hout & Hrel & Hrev).
      exists (c :: out). rewrite countLetters_other by done.
      cbn [encryptRunes]. rewrite (encryptChar_other e c Hc), Hout, Hrev.
      split; [done|]. split; [|done].
      constructor; [|done]. right. done.
Qed.

(** X15. On a reachable machine [encryptRunes] handles any text: it never
    panics, it takes one rotation step per letter of A-Z and none for any
    other character, so the machine it leaves depends only on how many
    letters the text has; the output has the length of the input, with a
    different letter in place of each letter and every other character
    where it was. *)
Theorem encryptRunes_shape e cs :
  reachable e ->
  exists out,
    encryptRunes e cs
    = Some (Nat.iter (countLetters cs) rotateRotors e, out) /\
    Forall2 letterwise cs out /\ length out = length cs.
Proof.
  intros He%reachable_wf.
  destruct (encryptRunes_text e cs He) as (out & Hout & Hrel & _).
  exists out. split; [done|]. split; [done|].
  symmetry. by eapply Forall2_length.
Qed.

Lemma encryptRunes_shape_witness :
  exists out,
    encryptRunes defaultMachine [72; 73; 33; 32; 79; 75]
    = Some (Nat.iter (countLetters [72; 73; 33; 32; 79; 75]) rotateRotors
              defaultMachine, out) /\
    Forall2 letterwise [72; 73; 33; 32; 79; 75] out /\
    length out = length [72; 73; 33; 32; 79; 75].
Proof.
  apply (encryptRunes_shape defaultMachine [72; 73; 33; 32; 79; 75]
           defaultMachine_reachable).
Defined.

(** X16. Reciprocity on any text: on a reachable machine, encrypting a text
    with letters and other characters mixed and then encrypting the output
    from the same starting machine gives the text back, and both runs end in
    the same machine. *)
Theorem reciprocity_text e cs :
  reachable e ->
  exists e1 out,
    encryptRunes e cs = Some (e1, out) /\
    encryptRunes e out = Some (e1, cs).
Proof.
  intros He%reachable_wf.
  destruct (encryptRunes_text e cs He) as (out & Hout & _ & Hrev).
  by eauto.
Qed.

Lemma reciprocity_text_witness :
  exists e1 out,
    encryptRunes defaultMachine [72; 73; 33; 32; 79; 75] = Some (e1, out) /\
    encryptRunes defaultMachine out = Some (e1, [72; 73; 33; 32; 79; 75]).
Proof.
  apply (reciprocity_text defaultMachine [72; 73; 33; 32; 79; 75]
           defaultMachine_reachable).
Defined.

(** X17. In a given reachable machine [encryptChar] permutes the letters:
    two letters with the same output are the same letter, and every letter
    is the output of some letter. *)
Theorem encryptChar_permutes e :
  reachable e ->
  (forall c1 c2 e1 e2 r,
     isLetter c1 -> isLetter c2 ->
     encryptChar e c1 = Some (e1, r) -> encryptChar e c2 = Some (e2, r) ->
     c1 = c2) /\
  (forall r, isLetter r ->
     exists c, isLetter c /\ encryptChar e c = Some (rotateRotors e, r)).
Proof.
  intros He%reachable_wf. split.
  - intros c1 c2 e1 e2 r H1 H2 E1 E2.
    destruct (encryptChar_letter e c1 He H1) as (r1 & Hr1 & _ & _ & B1).
    destruct (encryptChar_letter e c2 He H2) as (r2 & Hr2 & _ & _ & B2).
    rewrite Hr1 in E1. rewrite Hr2 in E2.
    injection E1 as _ ->. injection E2 as _ ->. congruence.
  - intros r Hr.
    destruct (encryptChar_letter e r He Hr) as (c & Hc & Hl & _ & Hback).
    by exists c.
Qed.

Lemma encryptChar_permutes_witness :
  (forall c1 c2 e1 e2 r,
     isLetter c1 -> isLetter c2 ->
     encryptChar defaultMachine c1 = Some (e1, r) ->
     encryptChar defaultMachine c2 = Some (e2, r) ->
     c1 = c2) /\
  (forall r, isLetter r ->
     exists c, isLetter c /\
       encryptChar defaultMachine c = Some (rotateRotors defaultMachine, r)).
Proof. apply (encryptChar_permutes defaultMachine defaultMachine_reachable). Defined.

(** ** Ring settings against positions *)

Lemma offsetOf_difference r :
  isIndex (position r) -> isIndex (ringSetting r) ->
  offsetOf r = (position r - ringSetting r) mod 26.
Proof.
  intros Hp Hr. destruct (offsetOf_index r Hp Hr) as [-> _].
  replace (position r - ringSetting r + 26)
    with (position r - ringSetting r + 1 * 26) by lia.
  apply Z_mod_plus_full.
Qed.

Lemma forwardRotor_offset r r' pos :
  wiring r' = wiring r -> offsetOf r' = offsetOf r ->
  forwardRotor r' pos = forwardRotor r pos.
Proof. intros Hw Ho. unfold forwardRotor. by rewrite Hw, Ho. Qed.

Lemma backwardRotor_offset r r' pos :
  wiring r' = wiring r -> offsetOf r' = offsetOf r ->
  backwardRotor r' pos = backwardRotor r pos.
Proof. intros Hw Ho. unfold backwardRotor. by rewrite Hw, Ho. Qed.

(** X18. The substitution sees a rotor only through its wiring and through
    position minus ring setting, mod 26: two machines with the same wirings
    and reflector and, rotor by rotor, the same difference substitute every
    index alike. Turning a ring and its rotor by the same amount changes
    nothing but the moment of the next notch. *)
Theorem substitute_by_offset e e' :
  ranges_ok e -> ranges_ok e' ->
  (forall i,
     wiring (rotorAt e' i) = wiring (rotorAt e i) /\
     (position (rotorAt e' i) - ringSetting (rotorAt e' i)) mod 26
     = (position (rotorAt e i) - ringSetting (rotorAt e i)) mod 26) ->
  reflector e' = reflector e ->
  forall pos, substitute e' pos = substitute e pos.
Proof.
  intros Hr Hr' Hsame Hrefl pos.
  assert (Hoff : forall i, wiring (rotorAt e' i) = wiring (rotorAt e i) /\
                           offsetOf (rotorAt e' i) = offsetOf (rotorAt e i)).
  { intros i. destruct (Hsame i) as [Hw Hd]. split; [done|].
    destruct (Hr i) as [P R], (Hr' i) as [P' R'].
    by rewrite !offsetOf_difference. }
  destruct (Hoff Slot0) as [W0 O0], (Hoff Slot1) as [W1 O1],
    (Hoff Slot2) as [W2 O2].
  rewrite !substitute_unfold, Hrefl.
  rewrite (forwardRotor_offset _ _ pos W2 O2).
  destruct (forwardRotor (rotorAt e Slot2) pos) as [a|]; [|done].
  cbn [mbind option_bind]. rewrite (forwardRotor_offset _ _ a W1 O1).
  destruct (forwardRotor (rotorAt e Slot1) a) as [b|]; [|done].
  cbn [mbind option_bind]. rewrite (forwardRotor_offset _ _ b W0 O0).
  destruct (forwardRotor (rotorAt e Slot0) b) as [c|]; [|done].
  cbn [mbind option_bind].
  destruct (reflect (reflector e) c) as [d|]; [|done].
  cbn [mbind option_bind]. rewrite (backwardRotor_offset _ _ d W0 O0).
  destruct (backwardRotor (rotorAt e Slot0) d) as [b'|]; [|done].
  cbn [mbind option_bind]. rewrite (backwardRotor_offset _ _ b' W1 O1).
  destruct (backwardRotor (rotorAt e Slot1) b') as [a'|]; [|done].
  cbn [mbind option_bind]. apply (backwardRotor_offset _ _ a' W2 O2).
Qed.

Lemma substitute_by_offset_witness :
  substitute (setRings3 (setPositions3 defaultMachine 7 1 25) 4 1 2) 11
  = substitute (setPositions3 defaultMachine 3 0 23) 11.
Proof.
  apply (substitute_by_offset (setPositions3 defaultMachine 3 0 23)
           (setRings3 (setPositions3 defaultMachine 7 1 25) 4 1 2)).
  - intros [| |]; unfold isIndex; cbn; lia.
  - intros [| |]; unfold isIndex; cbn; lia.
  - intros [| |]; split; reflexivity.
  - reflexivity.
Defined.

(** ** The line loop of [processIO] *)

Lemma letterwise_upper c r :
  letterwise (toUpper c) r -> toUpper r = r.
Proof.
  intros [(_ & Hr & _) | (_ & ->)].
  - by apply toUpper_letter.
  - apply toUpper_idempotent.
Qed.

Lemma processLine_spec e input :
  wf e ->
  exists output,
    let e1 := Nat.iter (countLetters (map toUpper input)) rotateRotors e in
    processLine e input = Some (e1, output) /\
    length output = length input /\
    processLine e output = Some (e1, map toUpper input).
Proof.
  intros He. unfold processLine.
  destruct (encryptRunes_text e (map toUpper input) He)
    as (out & Hout & Hrel & Hrev).
  exists out. cbv zeta. split; [done|].
  split.
  { apply Forall2_length in Hrel. rewrite length_map in Hrel. done. }
  assert (Hup : map toUpper out = out).
  { clear -Hrel. remember (map toUpper input) as up eqn:Hu.
    revert input Hu. induction Hrel as [|c r up out Hcr Hrel IH]; intros input Hu.
    - done.
    - destruct input as [|c0 input]; [done|]. injection Hu as -> ->.
      cbn. rewrite (letterwise_upper _ _ Hcr). f_equal. by eapply IH. }
  by rewrite Hup.
Qed.

Lemma encryptRunes_app e cs1 cs2 e1 out1 :
  encryptRunes e cs1 = Some (e1, out1) ->
  encryptRunes e (cs1 ++ cs2)
  = match encryptRunes e1 cs2 with
    | Some (e2, out2) => Some (e2, out1 ++ out2)
    | None => None
    end.
Proof.
  revert e out1. induction cs1 as [|c cs1 IH]; intros e out1.
  - intros [= <- <-]. cbn. by destruct (encryptRunes e cs2) as [[? ?]|].
  - cbn [encryptRunes app].
    destruct (encryptChar e c) as [[e' r]|]; [|done].
    destruct (encryptRunes e' cs1) as [[e'' rs]|] eqn:Hrs; [|done].
    intros [= <- <-]. rewrite (IH _ _ Hrs).
    by destruct (encryptRunes e'' cs2) as [[? ?]|].
Qed.

Lemma processLines_spec e lines :
  wf e ->
  exists e1 outputs,
    processLines e lines = Some (e1, outputs) /\ wf e1 /\
    Forall2 (fun input output => length output = length input) lines outputs /\
    encryptRunes e (map toUpper (concat lines)) = Some (e1, concat outputs) /\
    processLines e outputs = Some (e1, map (map toUpper) lines).
Proof.
  revert e. induction lines as [|input lines IH]; intros e He.
  - exists e, []. split; [done|]. split; [done|]. split; [constructor|]. done.
  - destruct (processLine_spec e input He) as (output & Hline & Hlen & Hback).
    cbv zeta in Hline, Hback.
    set (e1 := Nat.iter (countLetters (map toUpper input)) rotateRotors e) in *.
    assert (He1 : wf e1) by by apply wf_iter_rotateRotors.
    destruct (IH e1 He1) as (e2 & outputs & Hrest & He2 & Hlens & Hcat & Hrev).
    exists e2, (output :: outputs). cbn [processLines].
    rewrite Hline, Hrest, Hback, Hrev.
    split; [done|]. split; [done|]. split; [by constructor|]. split; [|done].
    cbn [concat]. rewrite map_app.
    unfold processLine in Hline. rewrite (encryptRunes_app _ _ _ _ _ Hline).
    by rewrite Hcat.
Qed.

(** X19. On a reachable machine and ASCII lines, the line loop never
    panics, returns one output line per input line, each as long as its
    input, and carries the machine across line ends untouched: the outputs
    put end to end are what one run over the upper-cased lines put end to
    end gives. *)
Theorem processLines_carries e lines :
  reachable e -> Forall (Forall isAscii) lines ->
  exists e1 outputs,
    processLines e lines = Some (e1, outputs) /\
    Forall2 (fun input output => length output = length input) lines outputs /\
    encryptRunes e (map toUpper (concat lines)) = Some (e1, concat outputs).
Proof.
  intros He%reachable_wf _.
  destruct (processLines_spec e lines He)
    as (e1 & outputs & Hout & _ & Hlens & Hcat & _).
  by exists e1, outputs.
Qed.

Lemma ascii_HI_ok : Forall (Forall isAscii) [[104; 105]; [111; 107; 46]].
Proof. repeat constructor; unfold isAscii; lia. Defined.

Lemma processLines_carries_witness :
  exists e1 outputs,
    processLines defaultMachine [[104; 105]; [111; 107; 46]]
    = Some (e1, outputs) /\
    Forall2 (fun input output => length output = length input)
      [[104; 105]; [111; 107; 46]] outputs /\
    encryptRunes defaultMachine
      (map toUpper (concat [[104; 105]; [111; 107; 46]]))
    = Some (e1, concat outputs).
Proof.
  apply (processLines_carries defaultMachine [[104; 105]; [111; 107; 46]]
           defaultMachine_reachable ascii_HI_ok).
Defined.

(** X20. Decryption by the program itself: on a reachable machine and
    ASCII lines, feeding the output lines to the line loop from the same
    starting machine returns the input lines in upper case, and ends in the
    same machine. *)
Theorem processLines_decrypts e lines :
  reachable e -> Forall (Forall isAscii) lines ->
  exists e1 outputs,
    processLines e lines = Some (e1, outputs) /\
    processLines e outputs = Some (e1, map (map toUpper) lines).
Proof.
  intros He%reachable_wf _.
  destruct (processLines_spec e lines He)
    as (e1 & outputs & Hout & _ & _ & _ & Hrev).
  by exists e1, outputs.
Qed.

Lemma processLines_decrypts_witness :
  exists e1 outputs,
    processLines defaultMachine [[104; 105]; [111; 107; 46]]
    = Some (e1, outputs) /\
    processLines defaultMachine outputs
    = Some (e1, map (map toUpper) [[104; 105]; [111; 107; 46]]).
Proof.
  apply (processLines_decrypts defaultMachine [[104; 105]; [111; 107; 46]]
           defaultMachine_reachable ascii_HI_ok).
Defined.

(** ** The configuration done by [main] *)

Lemma reachable_step e e' : reachable e -> api_step e e' -> reachable e'.
Proof.
  intros He Hstep. destruct Hstep;
    eauto using reach_reset, reach_positions, reach_rings, reach_plug,
      reach_encrypt.
Qed.

Lemma AddPlugboardConnection_success e a b e' :
  AddPlugboardConnection e a b = (e', None) ->
  plugboard e !! toUpper a = None /\ plugboard e !! toUpper b = None /\
  e' = withPlugboard e
         (<[toUpper b := toUpper a]> (<[toUpper a := toUpper b]> (plugboard e))).
Proof.
  unfold AddPlugboardConnection. cbv zeta.
  destruct (_ || _); [done|].
  destruct (plugboard e !! toUpper a); [done|].
  destruct (plugboard e !! toUpper b); [done|].
  by intros [= <-].
Qed.

Lemma fieldInstalled_steps e e' field :
  rtc api_step e e' -> fieldInstalled e field -> fieldInstalled e' field.
Proof.
  intros Hsteps (a & b & -> & Hab & Hba).
  exists a, b. eauto using api_steps_keep.
Qed.

Lemma plugPairs_inr e pairs e' :
  plugPairs e pairs = inr e' ->
  rtc api_step e e' /\
  rotors e' = rotors e /\ reflector e' = reflector e /\
  Forall (fieldInstalled e') pairs /\
  (size (plugboard e) + length pairs <= size (plugboard e'))%nat.
Proof.
  revert e. induction pairs as [|field rest IH]; intros e.
  - intros [= <-]. split; [done|]. split; [done|]. split; [done|].
    split; [constructor | cbn; lia].
  - cbn [plugPairs].
    destruct field as [|a [|b [|? ?]]]; try done.
    destruct (AddPlugboardConnection e (byteOf a) (byteOf b))
      as [e1 [err|]] eqn:Hadd; [done|].
    intros Hrest. destruct (IH _ Hrest) as (Hsteps & Hrot & Hrefl & Hall & Hsize).
    assert (Hstep : api_step e e1).
    { replace e1 with (AddPlugboardConnection e (byteOf a) (byteOf b)).1
        by by rewrite Hadd.
      constructor. }
    destruct (AddPlugboardConnection_success _ _ _ _ Hadd) as (Na & Nb & ->).
    split; [by econstructor|]. split; [done|]. split; [done|]. split.
    + constructor; [|done].
      apply (fieldInstalled_steps _ _ _ Hsteps). exists a, b.
      split; [done|]. cbn. split; [|by rewrite lookup_insert_eq].
      destruct (decide (toUpper (byteOf b) = toUpper (byteOf a))) as [->|Hne].
      * by rewrite lookup_insert_eq.
      * by rewrite lookup_insert_ne, lookup_insert_eq.
    + cbn in Hsize. cbn [length].
      pose proof (map_size_insert_None (toUpper (byteOf a)) (toUpper (byteOf b))
                    (plugboard e) Na) as H1.
      pose proof (map_size_insert (toUpper (byteOf b)) (toUpper (byteOf a))
                    (<[toUpper (byteOf a):=toUpper (byteOf b)]> (plugboard e)))
        as H2.
      destruct (<[toUpper (byteOf a):=toUpper (byteOf b)]> (plugboard e)
                  !! toUpper (byteOf b)); unfold id in H2; lia.
Qed.

Lemma configure_valid names refl p1 p2 p3 r1 r2 r3 pairs e0 :
  NewEnigma names refl = inr e0 ->
  all_1_26 p1 p2 p3 -> all_1_26 r1 r2 r3 ->
  configure names refl p1 p2 p3 r1 r2 r3 pairs
  = plugPairs
      (setRings3 (setPositions3 e0 (p1 - 1) (p2 - 1) (p3 - 1))
         (r1 - 1) (r2 - 1) (r3 - 1)) pairs.
Proof.
  intros Hnew Hp Hr. unfold configure. rewrite Hnew. cbv zeta.
  rewrite (SetRotorPositions_ok _ _ _ _ Hp), (SetRingSettings_ok _ _ _ _ Hr).
  by destruct e0 as [[l m r] refl0 pb].
Qed.

(** X21. When [main] gets through its configuration, the machine it hands
    to [processIO] is a reachable one: the position and ring arguments were
    all in 1..26 and each rotor holds argument - 1, every field of the
    plugboard flag is a pair installed in both directions (upper-cased), and
    there were at most 26 fields. *)
Theorem configure_ok names refl p1 p2 p3 r1 r2 r3 pairs e :
  configure names refl p1 p2 p3 r1 r2 r3 pairs = inr e ->
  reachable e /\
  all_1_26 p1 p2 p3 /\ all_1_26 r1 r2 r3 /\
  positions e = (p1 - 1, p2 - 1, p3 - 1) /\
  ringSettings e = (r1 - 1, r2 - 1, r3 - 1) /\
  Forall (fieldInstalled e) pairs /\
  (length pairs <= 26)%nat.
Proof.
  intros Hcfg.
  destruct (NewEnigma names refl) as [err|e0] eqn:Hnew.
  { unfold configure in Hcfg. by rewrite Hnew in Hcfg. }
  destruct (all_1_26_dec p1 p2 p3) as [Hp|Hp].
  2: { unfold configure in Hcfg. rewrite Hnew in Hcfg. cbv zeta in Hcfg.
       by rewrite (SetRotorPositions_fail _ _ _ _ Hp) in Hcfg. }
  destruct (all_1_26_dec r1 r2 r3) as [Hr|Hr].
  2: { unfold configure in Hcfg. rewrite Hnew in Hcfg. cbv zeta in Hcfg.
       rewrite (SetRotorPositions_ok _ _ _ _ Hp) in Hcfg.
       by rewrite (SetRingSettings_fail _ _ _ _ Hr) in Hcfg. }
  rewrite (configure_valid _ _ _ _ _ _ _ _ _ _ Hnew Hp Hr) in Hcfg.
  set (e1 := setRings3 _ _ _ _) in Hcfg.
  assert (He1 : reachable e1).
  { replace e1 with
      (SetRingSettings (SetRotorPositions (Reset e0) p1 p2 p3).1 r1 r2 r3).1.
    - eauto using reach_rings, reach_positions, reach_reset, reach_new.
    - rewrite (SetRotorPositions_ok _ _ _ _ Hp). cbn [fst].
      rewrite (SetRingSettings_ok _ _ _ _ Hr). cbn [fst].
      unfold e1. by destruct e0 as [[l m r] refl0 pb]. }
  destruct (plugPairs_inr _ _ _ Hcfg) as (Hsteps & Hrot & _ & Hall & Hsize).
  assert (He : reachable e).
  { clear -He1 Hsteps. induction Hsteps; eauto using reachable_step. }
  pose proof (reachable_wf e He) as (_ & _ & Hpb).
  pose proof (plugboard_ok_size _ Hpb) as H26.
  split; [done|]. split; [done|]. split; [done|].
  unfold positions, ringSettings, rotorAt. rewrite Hrot.
  split; [done|]. split; [done|]. split; [done|]. lia.
Qed.

Lemma configure_ok_witness :
  let e := (AddPlugboardConnection
              (setRings3 (setPositions3 defaultMachine 0 1 2) 3 4 5) 97 122).1 in
  reachable e /\
  all_1_26 1 2 3 /\ all_1_26 4 5 6 /\
  positions e = (1 - 1, 2 - 1, 3 - 1) /\
  ringSettings e = (4 - 1, 5 - 1, 6 - 1) /\
  Forall (fieldInstalled e) ["az"%string] /\
  (length ["az"%string] <= 26)%nat.
Proof.
  apply (configure_ok ["I"; "II"; "III"]%string "B" 1 2 3 4 5 6 ["az"%string]).
  reflexivity.
Defined.

(** X22. The errors of the configuration in the order [main] meets them:
    an error of [NewEnigma] first, whatever the other flags; then positions
    out of range, then ring settings out of range; the plugboard fields are
    looked at only after all of these have passed. *)
Theorem configure_errors names refl p1 p2 p3 r1 r2 r3 pairs :
  (forall err, NewEnigma names refl = inl err ->
     configure names refl p1 p2 p3 r1 r2 r3 pairs = inl (ConfigError err)) /\
  (forall e0, NewEnigma names refl = inr e0 ->
     (~ all_1_26 p1 p2 p3 ->
      configure names refl p1 p2 p3 r1 r2 r3 pairs
      = inl (ConfigError PositionOutOfRange)) /\
     (all_1_26 p1 p2 p3 -> ~ all_1_26 r1 r2 r3 ->
      configure names refl p1 p2 p3 r1 r2 r3 pairs
      = inl (ConfigError RingOutOfRange)) /\
     (all_1_26 p1 p2 p3 -> all_1_26 r1 r2 r3 ->
      configure names refl p1 p2 p3 r1 r2 r3 pairs
      = plugPairs
          (setRings3 (setPositions3 e0 (p1 - 1) (p2 - 1) (p3 - 1))
             (r1 - 1) (r2 - 1) (r3 - 1)) pairs)).
Proof.
  split.
  - intros err Hnew. unfold configure. by rewrite Hnew.
  - intros e0 Hnew. split; [|split].
    + intros Hp. unfold configure. rewrite Hnew. cbv zeta.
      by rewrite (SetRotorPositions_fail _ _ _ _ Hp).
    + intros Hp Hr. unfold configure. rewrite Hnew. cbv zeta.
      rewrite (SetRotorPositions_ok _ _ _ _ Hp).
      by rewrite (SetRingSettings_fail _ _ _ _ Hr).
    + by apply configure_valid.
Qed.

Lemma plugPairs_app e good rest e1 :
  plugPairs e good = inr e1 ->
  plugPairs e (good ++ rest) = plugPairs e1 rest.
Proof.
  revert e. induction good as [|field good IH]; intros e.
  - by intros [= <-].
  - cbn [plugPairs app].
    destruct field as [|a [|b [|? ?]]]; try done.
    destruct (AddPlugboardConnection e (byteOf a) (byteOf b)) as [e' [err|]];
      [done|].
    apply IH.
Qed.

(** X23. The plugboard loop stops at the first field it cannot install:
    after fields that were all accepted, a field whose length is not 2 ends
    it with the invalid-pair error naming that field, and a field of length
    2 that the plugboard refuses ends it with the plugboard's error; the
    fields after it are not looked at. *)
Theorem plugPairs_first_error e good e1 field rest :
  plugPairs e good = inr e1 ->
  (String.length field <> 2%nat ->
   plugPairs e (good ++ field :: rest) = inl (InvalidPlugPair field)) /\
  (forall a b err,
     field = String a (String b EmptyString) ->
     (AddPlugboardConnection e1 (byteOf a) (byteOf b)).2 = Some err ->
     plugPairs e (good ++ field :: rest) = inl (ConfigError err)).
Proof.
  intros Hgood. rewrite (plugPairs_app _ _ _ _ Hgood). cbn [plugPairs]. split.
  - intros Hlen. by destruct field as [|a [|b [|? ?]]].
  - intros a b err -> Herr.
    destruct (AddPlugboardConnection e1 (byteOf a) (byteOf b)) as [e' [err'|]];
      cbn in Herr; congruence.
Qed.

Lemma plugPairs_first_error_witness :
  (String.length "ABC" <> 2%nat ->
   plugPairs defaultMachine
     (app ["XY"%string] ("ABC"%string :: ["CD"%string]))
   = inl (InvalidPlugPair "ABC")) /\
  (forall a b err,
     "ABC"%string = String a (String b EmptyString) ->
     (AddPlugboardConnection
        (AddPlugboardConnection defaultMachine 88 89).1 (byteOf a) (byteOf b)).2
     = Some err ->
     plugPairs defaultMachine
     (app ["XY"%string] ("ABC"%string :: ["CD"%string]))
     = inl (ConfigError err)).
Proof.
  apply (plugPairs_first_error defaultMachine ["XY"%string]
           (AddPlugboardConnection defaultMachine 88 89).1 "ABC" ["CD"%string]).
  reflexivity.
Defined.

(** ** The inverse lookup, on any string *)

Lemma scanWiring_cases w pos n j :
  match scanWiring w pos n j with
  | Some k =>
      (j <= k < j + Z.of_nat n /\ wiredAt w pos k /\
       forall i, j <= i < k -> ~ wiredAt w pos i) \/
      (k = pos /\ forall i, j <= i < j + Z.of_nat n -> ~ wiredAt w pos i)
  | None =>
      exists i, j <= i < j + Z.of_nat n /\ byteAt w i = None /\
                forall i', j <= i' < i -> ~ wiredAt w pos i'
  end.
Proof.
  revert j. induction n as [|n IH]; intros j.
  - cbn [scanWiring]. right. split; [done|]. intros i Hi. lia.
  - cbn [scanWiring]. destruct (byteAt w j) as [b|] eqn:Hb.
    + destruct (GoInt.byte_sub b rune_A =? pos) eqn:Hm.
      * apply Z.eqb_eq in Hm. left. split; [lia|]. split.
        -- by exists b.
        -- intros i Hi. lia.
      * apply Z.eqb_neq in Hm.
        assert (Hj : ~ wiredAt w pos j).
        { intros (b' & Hb' & Hpos). congruence. }
        assert (Hfrom : forall (hi : Z),
                  (forall i, j + 1 <= i < hi -> ~ wiredAt w pos i) ->
                  forall i, j <= i < hi -> ~ wiredAt w pos i).
        { intros hi Hrest i Hi. destruct (decide (i = j)) as [->|Hne]; [done|].
          apply Hrest. lia. }
        specialize (IH (j + 1)).
        destruct (scanWiring w pos n (j + 1)) as [k|].
        -- destruct IH as [(Hk & Hw & Hno) | (Hk & Hno)].
           ++ left. split; [lia|]. split; [done|]. by apply Hfrom.
           ++ right. split; [done|]. apply Hfrom.
              intros i Hi. apply Hno. lia.
        -- destruct IH as (i & Hi & Hnone & Hno).
           exists i. split; [lia|]. split; [done|]. by apply Hfrom.
    + exists j. split; [lia|]. split; [done|]. intros i Hi. lia.
Qed.

(** X24. The search of the second loop, on any string: when it returns, it
    returns the first index from 0 to 25 at which the wiring has the letter
    looked for, or, when none of the 26 has it, the index it was given;
    when it panics, the string ended before index 26 and before any match. *)
Theorem scanWiring_first w pos :
  (forall k, scanWiring w pos 26 0 = Some k ->
     (0 <= k < 26 /\ wiredAt w pos k /\
      forall i, 0 <= i < k -> ~ wiredAt w pos i) \/
     (k = pos /\ forall i, 0 <= i < 26 -> ~ wiredAt w pos i)) /\
  (scanWiring w pos 26 0 = None ->
     exists i, 0 <= i < 26 /\ byteAt w i = None /\
               forall i', 0 <= i' < i -> ~ wiredAt w pos i').
Proof.
  pose proof (scanWiring_cases w pos 26 0) as H. split.
  - intros k Hk. by rewrite Hk in H.
  - intros Hnone. by rewrite Hnone in H.
Qed.

(** ** What encryption leaves alone *)

Lemma same_settings_advance e i : same_settings e (updRotor e i advance).
Proof.
  split; [|done]. intros j.
  destruct i, j; cbn; unfold advance; eauto;
    eexists; symmetry; apply withPosition_same.
Qed.

Lemma same_settings_rotate_any e : same_settings e (rotateRotors e).
Proof.
  unfold rotateRotors. cbv zeta.
  destruct (atNotch (rotorAt e Slot1)).
  - eauto using same_settings_trans, same_settings_advance.
  - destruct (atNotch (rotorAt e Slot2));
      eauto using same_settings_trans, same_settings_advance.
Qed.

Lemma same_settings_encryptChar e c e' r :
  encryptChar e c = Some (e', r) -> same_settings e e'.
Proof.
  unfold encryptChar. cbv zeta. destruct (outside_A_Z c).
  - intros [= <- _]. apply same_settings_refl.
  - destruct (substitute _ _); [|done].
    intros [= <- _]. apply same_settings_rotate_any.
Qed.

(** X25. Encryption moves rotors and nothing else: whatever the machine
    and the text, when [encryptRunes] returns, the machine it leaves has the
    names, wirings, notches and ring settings, the reflector and the
    plugboard it started with. *)
Theorem encryptRunes_keeps_settings e cs e1 out :
  encryptRunes e cs = Some (e1, out) ->
  (forall i,
     name (rotorAt e1 i) = name (rotorAt e i) /\
     wiring (rotorAt e1 i) = wiring (rotorAt e i) /\
     notch (rotorAt e1 i) = notch (rotorAt e i) /\
     ringSetting (rotorAt e1 i) = ringSetting (rotorAt e i)) /\
  reflector e1 = reflector e /\ plugboard e1 = plugboard e.
Proof.
  intros Hrun.
  assert (Hs : same_settings e e1).
  { revert e e1 out Hrun. induction cs as [|c cs IH]; intros e e1 out.
    - intros [= <- _]. apply same_settings_refl.
    - cbn [encryptRunes].
      destruct (encryptChar e c) as [[e' r]|] eqn:Hc; [|done].
      destruct (encryptRunes e' cs) as [[e2 rs]|] eqn:Hrs; [|done].
      intros [= <- _].
      eauto using same_settings_trans, same_settings_encryptChar. }
  destruct Hs as (Hrot & Hrefl & Hpb). split; [|done].
  intros i. destruct (Hrot i) as [p ->]. done.
Qed.

Lemma encryptRunes_keeps_settings_witness :
  (forall i,
     name (rotorAt (rotateRotors defaultMachine) i)
     = name (rotorAt defaultMachine i) /\
     wiring (rotorAt (rotateRotors defaultMachine) i)
     = wiring (rotorAt defaultMachine i) /\
     notch (rotorAt (rotateRotors defaultMachine) i)
     = notch (rotorAt defaultMachine i) /\
     ringSetting (rotorAt (rotateRotors defaultMachine) i)
     = ringSetting (rotorAt defaultMachine i)) /\
  reflector (rotateRotors defaultMachine) = reflector defaultMachine /\
  plugboard (rotateRotors defaultMachine) = plugboard defaultMachine.
Proof.
  apply (encryptRunes_keeps_settings defaultMachine [65]
           (rotateRotors defaultMachine) [66]).
  reflexivity.
Defined.

(** X26. Which letter the plugboard error names: on two letters of A-Z,
    the first argument is looked up first, so the error names a whenever a
    has a partner, whatever b, and names b only when a is free. *)
Theorem AddPlugboardConnection_names e a b :
  isLetter a -> isLetter b ->
  (is_Some (plugboard e !! a) ->
   AddPlugboardConnection e a b = (e, Some (AlreadyConnected a))) /\
  (plugboard e !! a = None -> is_Some (plugboard e !! b) ->
   AddPlugboardConnection e a b = (e, Some (AlreadyConnected b))).
Proof.
  intros Ha Hb. unfold AddPlugboardConnection. cbv zeta.
  rewrite (toUpper_letter a Ha), (toUpper_letter b Hb).
  rewrite (proj2 (plug_guard a b) (conj Ha Hb)). split.
  - by intros [v ->].
  - by intros -> [v ->].
Qed.

Lemma AddPlugboardConnection_names_witness :
  let e := (AddPlugboardConnection defaultMachine 65 66).1 in
  (is_Some (plugboard e !! 66) ->
   AddPlugboardConnection e 66 65 = (e, Some (AlreadyConnected 66))) /\
  (plugboard e !! 66 = None -> is_Some (plugboard e !! 65) ->
   AddPlugboardConnection e 66 65 = (e, Some (AlreadyConnected 65))).
Proof.
  apply (AddPlugboardConnection_names
           (AddPlugboardConnection defaultMachine 65 66).1 66 65);
    unfold isLetter, rune_A, rune_Z; lia.
Defined.
